(** * TenderAI: the extraction pipeline and the record store of [final_app.py]

    A shallow embedding of the parts of [final_app.py] that carry logic:
    [simple_summary], [extract_fields], [process_file], [save_tenders], the
    loading of [tenders] at start-up and the listing of [index].

    A Python [str] is a sequence of Unicode code points; it is modelled as a
    list of code points ([N]).  The regular expressions of the program are
    kept as syntax trees and run by a backtracking matcher that follows the
    priorities of Python's [re] module (leftmost start, first alternative
    first, greedy and lazy repetition, capture groups, lookbehind). *)

From Stdlib Require Import String Ascii NArith List Bool Arith Lia.
From Stdlib Require Import Permutation Sorted.
From Stdlib Require DecimalString.
Import ListNotations.

Set Implicit Arguments.
Local Open Scope N_scope.
Local Open Scope list_scope.

(** ** Python strings *)

Module PyStr.

Definition char := N.
Definition str := list char.

(** A string literal of the source, all of whose characters are ASCII. *)
Definition py (s : string) : str :=
  map N_of_ascii (list_ascii_of_string s).

(** [a == b] *)
Fixpoint str_eqb (a b : str) : bool :=
  match a, b with
  | [], [] => true
  | x :: a', y :: b' => (x =? y) && str_eqb a' b'
  | _, _ => false
  end.

(** Truth value of a string: [if text] is [text != ''] . *)
Definition truthy (s : str) : bool :=
  match s with [] => false | _ :: _ => true end.

(** [sep.join(parts)] *)
Fixpoint join (sep : str) (parts : list str) : str :=
  match parts with
  | [] => []
  | [p] => p
  | p :: ps => p ++ sep ++ join sep ps
  end.

(** Code points for which [str.isspace] holds and which [\s] matches in a
    [str] pattern (Unicode 14, as shipped with CPython 3.11). *)
Definition is_space (c : char) : bool :=
  ((9 <=? c) && (c <=? 13)) || ((28 <=? c) && (c <=? 32))
  || (c =? 133) || (c =? 160) || (c =? 5760)
  || ((8192 <=? c) && (c <=? 8202))
  || (c =? 8232) || (c =? 8233) || (c =? 8239) || (c =? 8287)
  || (c =? 12288).

(** The code points of the digit zero of every decimal-digit block (general
    category Nd); each block holds the ten digits in order. *)
Definition nd_zeros : list N :=
  [48; 1632; 1776; 1984; 2406; 2534; 2662; 2790; 2918; 3046; 3174; 3302;
   3430; 3558; 3664; 3792; 3872; 4160; 4240; 6112; 6160; 6470; 6608; 6784;
   6800; 6992; 7088; 7232; 7248; 42528; 43216; 43264; 43472; 43504; 43600;
   44016; 65296; 66720; 68912; 69734; 69872; 69942; 70096; 70384; 70736;
   70864; 71248; 71360; 71472; 71904; 72016; 72784; 73040; 73120; 92768;
   92864; 93008; 120782; 120792; 120802; 120812; 120822; 123200; 123632;
   125264; 130032].

(** What [\d] matches in a [str] pattern. *)
Definition is_digit (c : char) : bool :=
  existsb (fun z => (z <=? c) && (c <? z + 10)) nd_zeros.

(** The simple lower-case mapping used by the matcher under [re.IGNORECASE].
    It is exact on every code point whose image is an ASCII letter (the
    capitals, U+0130 and the Kelvin sign U+212A); other code points are left
    in place, which changes no comparison against the letters that occur in
    the patterns of this program. *)
Definition sre_lower (c : char) : char :=
  if (65 <=? c) && (c <=? 90) then c + 32
  else if c =? 304 then 105
  else if c =? 8490 then 107
  else c.

(** The extra equivalents that the pattern compiler adds to a lower-case
    letter ([i] and dotless i, [s] and long s). *)
Definition sre_fixes (lo : char) : list char :=
  if lo =? 105 then [305]
  else if lo =? 115 then [383]
  else [].

(** Does text character [c] match pattern literal [p] when case is
    ignored? *)
Definition ci_eq (p c : char) : bool :=
  let lo := sre_lower p in
  let lc := sre_lower c in
  (lc =? lo) || existsb (N.eqb lc) (sre_fixes lo).

(** [s.strip()] *)
Fixpoint lstrip (s : str) : str :=
  match s with
  | c :: tl => if is_space c then lstrip tl else s
  | [] => []
  end.

Definition rstrip (s : str) : str := rev (lstrip (rev s)).

Definition strip (s : str) : str := rstrip (lstrip s).

(** [s.split(sep)] for a separator of one character: the pieces between the
    separators, at least one piece. *)
Fixpoint split_chr (sep : char) (s : str) : list str :=
  match s with
  | [] => [[]]
  | c :: tl =>
      if c =? sep then [] :: split_chr sep tl
      else match split_chr sep tl with
           | p :: ps => (c :: p) :: ps
           | [] => [[c]]
           end
  end.

(** Comparison of two strings with [<], code point by code point. *)
Fixpoint str_ltb (a b : str) : bool :=
  match a, b with
  | _, [] => false
  | [], _ :: _ => true
  | x :: a', y :: b' =>
      if x <? y then true else if y <? x then false else str_ltb a' b'
  end.

End PyStr.

Import PyStr.

(** ** The regular expressions of [re], as far as the program uses them *)

Module Re.

(** Sets of characters: a literal, [\d], [\s], [.], a bracket class and a
    negated bracket class. *)
Inductive cset : Type :=
| CChar (c : char)
| CDigit
| CSpace
| CDot
| CUnion (a b : cset)
| CNot (a : cset).

Fixpoint cset_mem (ic : bool) (cs : cset) (c : char) : bool :=
  match cs with
  | CChar p => if ic then ci_eq p c else p =? c
  | CDigit => is_digit c
  | CSpace => is_space c
  | CDot => negb (c =? 10)
  | CUnion a b => cset_mem ic a c || cset_mem ic b c
  | CNot a => negb (cset_mem ic a c)
  end.

(** Patterns.  [Rep cs lo hi greedy] repeats a one-character item between
    [lo] and [hi] times ([None]: no upper bound); every repetition of the
    program has this shape, the optional items [\.?] and [(?: date)?] are
    [Opt]. *)
Inductive regex : Type :=
| Eps
| Chr (cs : cset)
| Cat (a b : regex)
| Alt (a b : regex)
| Opt (a : regex)
| Rep (cs : cset) (lo : nat) (hi : option nat) (greedy : bool)
| Group (n : nat) (a : regex)
| LookBehind (cs : cset).

(** A literal string of the pattern. *)
Fixpoint lit (s : str) : regex :=
  match s with
  | [] => Eps
  | [c] => Chr (CChar c)
  | c :: tl => Cat (Chr (CChar c)) (lit tl)
  end.

(** The matcher's state: the text before the cursor (nearest character
    first), the text from the cursor on, and the groups captured so far. *)
Record state : Type := mkState {
  before : str;
  rest : str;
  caps : list (nat * str)
}.

Definition set_cap (n : nat) (w : str) (c : list (nat * str))
  : list (nat * str) := (n, w) :: c.

Fixpoint get_cap (n : nat) (c : list (nat * str)) : option str :=
  match c with
  | [] => None
  | (m, w) :: tl => if Nat.eqb m n then Some w else get_cap n tl
  end.

(** The part of the text the cursor went over from [s] to [s']. *)
Definition consumed (s s' : state) : str :=
  firstn (length (rest s) - length (rest s')) (rest s).

Definition hi_zero (hi : option nat) : bool :=
  match hi with Some O => true | _ => false end.

Definition hi_pred (hi : option nat) : option nat :=
  match hi with Some h => Some (pred h) | None => None end.

Section Run.
Variable R : Type.
Variable ic : bool.

(** Repetition of a character set, by recursion on the text left. *)
Fixpoint rep (cs : cset) (greedy : bool) (lo : nat) (hi : option nat)
         (b r : str) (c : list (nat * str))
         (k : state -> option R) {struct r} : option R :=
  let stop := match lo with O => k (mkState b r c) | S _ => None end in
  if hi_zero hi then stop
  else
    match r with
    | x :: tl =>
        if cset_mem ic cs x then
          let more := rep cs greedy (pred lo) (hi_pred hi) (x :: b) tl c k in
          if greedy then
            match more with Some v => Some v | None => stop end
          else
            match stop with Some v => Some v | None => more end
        else stop
    | [] => stop
    end.

(** [run r s k]: match [r] at the cursor of [s], then go on with [k];
    [None] makes the matcher backtrack. *)
Fixpoint run (r : regex) (s : state) (k : state -> option R)
  : option R :=
  match r with
  | Eps => k s
  | Chr cs =>
      match rest s with
      | x :: tl =>
          if cset_mem ic cs x
          then k (mkState (x :: before s) tl (caps s))
          else None
      | [] => None
      end
  | Cat a b => run a s (fun s' => run b s' k)
  | Alt a b =>
      match run a s k with
      | Some v => Some v
      | None => run b s k
      end
  | Opt a =>
      match run a s k with
      | Some v => Some v
      | None => k s
      end
  | Rep cs lo hi greedy => rep cs greedy lo hi (before s) (rest s) (caps s) k
  | Group n a =>
      run a s (fun s' =>
        k (mkState (before s') (rest s') (set_cap n (consumed s s') (caps s'))))
  | LookBehind cs =>
      match before s with
      | x :: _ => if cset_mem ic cs x then k s else None
      | [] => None
      end
  end.
End Run.

(** A match object: where the match starts, the matched text (group 0) and
    the numbered groups. *)
Record match_obj : Type := mkMatch {
  m_start : nat;
  m_text : str;
  m_caps : list (nat * str)
}.

(** [m.group(n)] for a group that took part in the match. *)
Definition group (m : match_obj) (n : nat) : str :=
  match n with
  | O => m_text m
  | _ => match get_cap n (m_caps m) with Some w => w | None => [] end
  end.

(** One attempt at the cursor; with [must_advance] an empty match is
    refused and the matcher backtracks. *)
Definition match_here (ic : bool) (r : regex) (must_advance : bool)
           (b t : str) : option state :=
  run ic r (mkState b t [])
      (fun s' =>
         if must_advance && (length (rest s') =? length t)%nat
         then None else Some s').

(** The scan of [re.search]: the attempts go from left to right and the
    first one that succeeds is the result. *)
Fixpoint search_from (ic : bool) (r : regex) (pos : nat) (b t : str)
  : option match_obj :=
  match match_here ic r false b t with
  | Some s' =>
      Some (mkMatch pos (consumed (mkState b t []) s') (caps s'))
  | None =>
      match t with
      | x :: tl => search_from ic r (S pos) (x :: b) tl
      | [] => None
      end
  end.

(** [re.search(pattern, text, flags)] *)
Definition search (ic : bool) (r : regex) (text : str) : option match_obj :=
  search_from ic r 0 [] text.

(** The loop of [re.split] for a pattern without groups.  [skip] counts the
    characters of the current match still to step over, [cur] is the piece
    collected since the last match (last character first).  After an empty
    match the search is repeated at the same place and must advance. *)
Fixpoint split_scan (ic : bool) (r : regex) (skip : nat)
         (b t cur : str) {struct t} : list str :=
  match skip with
  | S n =>
      match t with
      | x :: tl => split_scan ic r n (x :: b) tl cur
      | [] => [rev cur]
      end
  | O =>
      let step cur' :=
        match t with
        | x :: tl => split_scan ic r 0 (x :: b) tl (x :: cur')
        | [] => [rev cur']
        end in
      let skip_over len cur' :=
        match t with
        | x :: tl => split_scan ic r (pred len) (x :: b) tl cur'
        | [] => [rev cur']
        end in
      match match_here ic r false b t with
      | None => step cur
      | Some s' =>
          match (length t - length (rest s'))%nat with
          | S _ as len => rev cur :: skip_over len []
          | O =>
              rev cur ::
              match match_here ic r true b t with
              | Some s'' =>
                  [] :: skip_over (length t - length (rest s''))%nat []
              | None => step []
              end
          end
      end
  end.

(** [re.split(pattern, text)] *)
Definition split (ic : bool) (r : regex) (text : str) : list str :=
  split_scan ic r 0 [] text [].

(** *** What a pattern matches

    [matches ic r b w c c']: the pattern [r] matches the word [w] when the
    text before it, nearest character first, is [b]; the groups go from
    [c] to [c'].  This says which words a pattern accepts, not which of
    them the matcher prefers. *)
Inductive matches (ic : bool)
  : regex -> str -> str -> list (nat * str) -> list (nat * str) -> Prop :=
| M_Eps b c : matches ic Eps b [] c c
| M_Chr cs b x c :
    cset_mem ic cs x = true -> matches ic (Chr cs) b [x] c c
| M_Cat r1 r2 b w1 w2 c c1 c2 :
    matches ic r1 b w1 c c1 ->
    matches ic r2 (rev w1 ++ b) w2 c1 c2 ->
    matches ic (Cat r1 r2) b (w1 ++ w2) c c2
| M_AltL r1 r2 b w c c' :
    matches ic r1 b w c c' -> matches ic (Alt r1 r2) b w c c'
| M_AltR r1 r2 b w c c' :
    matches ic r2 b w c c' -> matches ic (Alt r1 r2) b w c c'
| M_OptSome r b w c c' :
    matches ic r b w c c' -> matches ic (Opt r) b w c c'
| M_OptNone r b c : matches ic (Opt r) b [] c c
| M_Rep cs lo hi g b w c :
    (lo <= length w)%nat ->
    match hi with Some h => (length w <= h)%nat | None => True end ->
    forallb (cset_mem ic cs) w = true ->
    matches ic (Rep cs lo hi g) b w c c
| M_Group n r b w c c' :
    matches ic r b w c c' ->
    matches ic (Group n r) b w c (set_cap n w c')
| M_Look cs b x c :
    cset_mem ic cs x = true -> matches ic (LookBehind cs) (x :: b) [] c c.

(** The longest prefix of [t] inside a set of characters, and what follows
    it. *)
Fixpoint span (f : char -> bool) (t : str) : str * str :=
  match t with
  | x :: tl =>
      if f x then let (w, t') := span f tl in (x :: w, t') else ([], t)
  | [] => ([], [])
  end.

End Re.

Import Re.

(** ** The application *)

Module TenderAI.

(** *** Patterns of [simple_summary] and [extract_fields] *)

Definition rupee : char := 8377.

(** The one-character literal written [s] in a pattern. *)
Definition chr_of (s : string) : cset :=
  match py s with c :: _ => CChar c | [] => CNot CDot end.

(** [(₹|Rs\.?|INR)] *)
Definition currency_marker : regex :=
  Alt (Chr (CChar rupee))
      (Alt (Cat (lit (py "Rs")) (Opt (Chr (chr_of "."))))
           (lit (py "INR"))).

(** [[\d,\.]] *)
Definition numeric_chars : cset :=
  CUnion CDigit (CUnion (chr_of ",") (chr_of ".")).

(** [(₹|Rs\.?|INR)\s*([\d,\.]+)] *)
Definition general_re : regex :=
  Cat (Group 1 currency_marker)
      (Cat (Rep CSpace 0 None true)
           (Group 2 (Rep numeric_chars 1 None true))).

(** [(?:EMD|Earnest Money Deposit)] *)
Definition deposit_indicator : regex :=
  Alt (lit (py "EMD")) (lit (py "Earnest Money Deposit")).

(** [(?:EMD|Earnest Money Deposit).*?(₹|Rs\.?|INR)\s*([\d,\.]+)] *)
Definition emd_re : regex :=
  Cat deposit_indicator (Cat (Rep CDot 0 None false) general_re).

(** [[/-]] *)
Definition date_sep : cset := CUnion (chr_of "/") (chr_of "-").

(** [\d{1,2}[/-]\d{1,2}[/-]\d{2,4}] *)
Definition generic_date_re : regex :=
  Cat (Rep CDigit 1 (Some 2%nat) true)
      (Cat (Chr date_sep)
           (Cat (Rep CDigit 1 (Some 2%nat) true)
                (Cat (Chr date_sep)
                     (Rep CDigit 2 (Some 4%nat) true)))).

(** [(?:submission(?: date)?|due date|closing date)] *)
Definition deadline_indicator : regex :=
  Alt (Cat (lit (py "submission")) (Opt (lit (py " date"))))
      (Alt (lit (py "due date")) (lit (py "closing date"))).

(** [(?:submission(?: date)?|due date|closing date)[^\d]*(\d{1,2}[/-]\d{1,2}[/-]\d{2,4})] *)
Definition date_re : regex :=
  Cat deadline_indicator
      (Cat (Rep (CNot CDigit) 0 None true)
           (Group 1 generic_date_re)).

(** [[.!?]] *)
Definition terminator : cset :=
  CUnion (chr_of ".") (CUnion (chr_of "!") (chr_of "?")).

(** [(?<=[.!?])\s+] *)
Definition sentence_re : regex :=
  Cat (LookBehind terminator) (Rep CSpace 1 None true).

(** *** [simple_summary] *)

Definition simple_summary (text : str) : str :=
  let sentences := Re.split false sentence_re (strip text) in
  join (py " ") (firstn 3 sentences).

(** *** [extract_fields] *)

Record fields : Type := mkFields {
  f_emd : str;
  f_due_date : str;
  f_eligibility : str
}.

Definition extract_fields (text : str) : fields :=
  let emd :=
    match Re.search true emd_re text with
    | Some emd_match =>
        group emd_match 1 ++ py " " ++ group emd_match 2
    | None =>
        match Re.search false general_re text with
        | Some general_match =>
            group general_match 1 ++ py " " ++ group general_match 2
        | None => []
        end
    end in
  let due_date :=
    match Re.search true date_re text with
    | Some date_match => group date_match 1
    | None =>
        match Re.search false generic_date_re text with
        | Some generic_date => group generic_date 0
        | None => []
        end
    end in
  let eligibility :=
    if (200 <? length text)%nat then firstn 200 text ++ py "..." else text in
  mkFields emd due_date eligibility.

(** *** The record store: [tenders], [save_tenders] and the start-up load *)

Definition rows := list (list str).

(** The dictionary built at the end of [process_file]. *)
Record tender : Type := mkTender {
  id_ : str;
  filename : str;
  path : str;
  text : str;
  table_rows : rows;
  summary : str;
  emd : str;
  due_date : str;
  eligibility : str;
  uploaded_at : str
}.

(** A Python [dict] with string keys: the items in insertion order, every
    key once. *)
Definition dict (V : Type) := list (str * V).

(** [d[k] = v]: a key already present keeps its place. *)
Fixpoint dict_set (V : Type) (d : dict V) (k : str) (v : V) : dict V :=
  match d with
  | [] => [(k, v)]
  | (k', v') :: tl =>
      if str_eqb k' k then (k, v) :: tl else (k', v') :: dict_set tl k v
  end.

(** [d.get(k)] *)
Fixpoint dict_get (V : Type) (d : dict V) (k : str) : option V :=
  match d with
  | [] => None
  | (k', v') :: tl => if str_eqb k' k then Some v' else dict_get tl k
  end.

(** [d.values()] *)
Definition dict_values (V : Type) (d : dict V) : list V := map snd d.

Definition dict_keys (V : Type) (d : dict V) : list str := map fst d.

(** The dictionary that results from a sequence of items, as [json.load]
    builds it for a JSON object. *)
Definition dict_of_items (V : Type) (l : list (str * V)) : dict V :=
  fold_left (fun d kv => dict_set d (fst kv) (snd kv)) l [].

(** The documents a JSON file of this program holds.  The text layer of the
    [json] module is not part of the program: [json.dump] is taken to write
    the document of the object it is given, and [json.load] to give back
    the object of the document it reads. *)
#[warnings="-register-all"]
Inductive json : Type :=
| JStr (s : str)
| JArr (l : list json)
| JObj (l : list (str * json)).

Definition json_of_rows (r : rows) : json :=
  JArr (map (fun row => JArr (map JStr row)) r).

(** The document of one tender dictionary, key by key. *)
Definition json_of_tender (t : tender) : json :=
  JObj [ (py "id", JStr (id_ t));
         (py "filename", JStr (filename t));
         (py "path", JStr (path t));
         (py "text", JStr (text t));
         (py "table_rows", json_of_rows (table_rows t));
         (py "summary", JStr (summary t));
         (py "emd", JStr (emd t));
         (py "due_date", JStr (due_date t));
         (py "eligibility", JStr (eligibility t));
         (py "uploaded_at", JStr (uploaded_at t)) ].

Definition json_of_tenders (d : dict tender) : json :=
  JObj (map (fun kv => (fst kv, json_of_tender (snd kv))) d).

Definition str_of_json (j : json) : option str :=
  match j with JStr s => Some s | _ => None end.

Fixpoint all_some (A : Type) (l : list (option A)) : option (list A) :=
  match l with
  | [] => Some []
  | Some x :: tl =>
      match all_some tl with Some r => Some (x :: r) | None => None end
  | None :: _ => None
  end.

Definition row_of_json (j : json) : option (list str) :=
  match j with JArr l => all_some (map str_of_json l) | _ => None end.

Definition rows_of_json (j : json) : option rows :=
  match j with JArr l => all_some (map row_of_json l) | _ => None end.

Definition field (d : dict json) (k : string) : option str :=
  match dict_get d (py k) with Some j => str_of_json j | None => None end.

(** Reading a tender dictionary back: each declared key is looked up by
    name. *)
Definition tender_of_json (j : json) : option tender :=
  match j with
  | JObj l =>
      let d := dict_of_items l in
      match field d "id", field d "filename", field d "path",
            field d "text",
            match dict_get d (py "table_rows") with
            | Some r => rows_of_json r | None => None end,
            field d "summary", field d "emd", field d "due_date",
            field d "eligibility", field d "uploaded_at" with
      | Some a, Some b, Some c, Some e, Some f, Some g, Some h, Some i,
        Some j', Some k => Some (mkTender a b c e f g h i j' k)
      | _, _, _, _, _, _, _, _, _, _ => None
      end
  | _ => None
  end.

Definition tenders_of_json (j : json) : option (dict tender) :=
  match j with
  | JObj l =>
      match all_some (map (fun kv => tender_of_json (snd kv)) l) with
      | Some ts => Some (dict_of_items (combine (map fst l) ts))
      | None => None
      end
  | _ => None
  end.

(** *** The world [process_file] runs in *)

Definition bytes := list N.

(** Calls of the format extractors. *)
Inductive event : Type :=
| CallPdf (p : str)
| CallDocx (p : str)
| CallXlsx (p : str).

Record world : Type := mkWorld {
  tenders : dict tender;
  data_file : option json;
  files : list (str * bytes);
  calls : list event;
  ticks : nat
}.

(** What lies outside the program: the directory of the script, the results
    of [uuid.uuid4] and [datetime.now] (by call number), [str.lower], and
    the text or rows that each extractor returns for a path, given the files
    on disk (the empty result when it fails). *)
Record env : Type := mkEnv {
  BASE_DIR : str;
  uuid4 : nat -> str;
  now_isoformat : nat -> str;
  str_lower : str -> str;
  pdftotext : list (str * bytes) -> str -> str;
  docx_text : list (str * bytes) -> str -> str;
  xlsx_rows : list (str * bytes) -> str -> rows
}.

(** State passing. *)
Definition M (A : Type) : Type := world -> A * world.

Definition ret (A : Type) (a : A) : M A := fun w => (a, w).

Definition bind (A B : Type) (m : M A) (f : A -> M B) : M B :=
  fun w => let (a, w') := m w in f a w'.

Notation "x <- m ;; k" := (bind m (fun x => k))
  (at level 61, m at next level, right associativity).

(** The line feed of ['\n'] *)
Definition newline : str := [10].

(** [os.path.join(a, b)] on POSIX *)
Definition path_join (a b : str) : str :=
  match b with
  | 47 :: _ => b
  | _ =>
      match rev a with
      | [] => b
      | 47 :: _ => a ++ b
      | _ => a ++ py "/" ++ b
      end
  end.

Section WithEnv.
Variable E : env.

Definition UPLOAD_DIR : str := path_join (BASE_DIR E) (py "uploads").

Definition tick : M nat :=
  fun w => (ticks w,
            mkWorld (tenders w) (data_file w) (files w) (calls w)
                    (S (ticks w))).

Definition new_uuid : M str := n <- tick ;; ret (uuid4 E n).

Definition now : M str := n <- tick ;; ret (now_isoformat E n).

Definition log_call (e : event) : M unit :=
  fun w => (tt, mkWorld (tenders w) (data_file w) (files w)
                        (calls w ++ [e]) (ticks w)).

(** [file_storage.save(save_path)] *)
Definition save_upload (p : str) (content : bytes) : M unit :=
  fun w => (tt, mkWorld (tenders w) (data_file w) ((p, content) :: files w)
                        (calls w) (ticks w)).

Definition extract_text_from_pdf (p : str) : M str :=
  _ <- log_call (CallPdf p) ;; fun w => (pdftotext E (files w) p, w).

Definition extract_text_from_docx (p : str) : M str :=
  _ <- log_call (CallDocx p) ;; fun w => (docx_text E (files w) p, w).

Definition parse_xlsx (p : str) : M rows :=
  _ <- log_call (CallXlsx p) ;; fun w => (xlsx_rows E (files w) p, w).

(** [save_tenders] *)
Definition save_tenders : M unit :=
  fun w => (tt, mkWorld (tenders w) (Some (json_of_tenders (tenders w)))
                        (files w) (calls w) (ticks w)).

(** [tenders[file_id] = tender; save_tenders()] *)
Definition put (file_id : str) (t : tender) : M unit :=
  _ <- (fun w => (tt, mkWorld (dict_set (tenders w) file_id t)
                              (data_file w) (files w) (calls w)
                              (ticks w))) ;;
  save_tenders.

(** [tenders.get(tid)] *)
Definition get (tid : str) (w : world) : option tender :=
  dict_get (tenders w) tid.

(** [filename.lower().split('.')[-1]] *)
Definition extension (name : str) : str :=
  last (split_chr 46 (str_lower E name)) [].

(** The dispatch on the extension: the text and the rows before the
    fallback. *)
Definition extract_by_ext (ext save_path : str) : M (str * rows) :=
  if str_eqb ext (py "pdf") then
    t <- extract_text_from_pdf save_path ;; ret (t, [])
  else if str_eqb ext (py "docx") then
    t <- extract_text_from_docx save_path ;; ret (t, [])
  else if str_eqb ext (py "xlsx") || str_eqb ext (py "xls") then
    r <- parse_xlsx save_path ;; ret ([], r)
  else ret ([], []).

(** ['\n'.join([', '.join(row) for row in table_rows[:5]])] *)
Definition flatten_rows (r : rows) : str :=
  join newline (map (join (py ", ")) (firstn 5 r)).

(** The text after the fallback of [process_file]. *)
Definition fallback_text (t : str) (r : rows) : str :=
  match t, r with
  | [], _ :: _ => flatten_rows r
  | _, _ => t
  end.

Record upload : Type := mkUpload {
  u_filename : str;
  u_content : bytes
}.

(** The first half of [process_file]: the file is named and saved, and
    the extractor of its extension is run.  The result is the id, the
    file name, the path, and the text and rows extracted. *)
Definition ingest (file_storage : upload)
  : M (str * str * str * (str * rows)) :=
  let name := u_filename file_storage in
  file_id <- new_uuid ;;
  let save_path := path_join UPLOAD_DIR (file_id ++ py "_" ++ name) in
  _ <- save_upload save_path (u_content file_storage) ;;
  let ext := extension name in
  tr <- extract_by_ext ext save_path ;;
  ret (file_id, name, save_path, tr).

(** The second half: fallback, summary, fields, the tender dictionary
    and its storage. *)
Definition assemble (x : str * str * str * (str * rows)) : M tender :=
  let '(file_id, name, save_path, (text0, table_rows0)) := x in
  let txt := fallback_text text0 table_rows0 in
  let summ := if truthy txt then simple_summary txt else [] in
  let flds := if truthy txt then extract_fields txt
              else mkFields [] [] [] in
  stamp <- now ;;
  let t := mkTender file_id name save_path txt table_rows0 summ
                    (f_emd flds) (f_due_date flds) (f_eligibility flds)
                    stamp in
  _ <- put file_id t ;;
  ret t.

Definition process_file (file_storage : upload) : M tender :=
  x <- ingest file_storage ;; assemble x.

End WithEnv.

(** The start-up load: the tenders of the data file if there is one, the
    empty dictionary otherwise; [None] when the file does not hold a
    dictionary of tenders. *)
Definition load_tenders (f : option json) : option (dict tender) :=
  match f with
  | Some j => tenders_of_json j
  | None => Some []
  end.

(** Every key of a dictionary occurs once. *)
Definition dict_wf (V : Type) (d : dict V) : Prop := NoDup (dict_keys d).

(** *** The listing of [index] *)

Section Sorting.
Variable A : Type.
Variable key : A -> str.

(** A stable sort that compares keys with [<] only, as [list.sort]. *)
Fixpoint insert (x : A) (l : list A) : list A :=
  match l with
  | [] => [x]
  | y :: tl => if str_ltb (key y) (key x) then y :: insert x tl
               else x :: y :: tl
  end.

Fixpoint stable_sort (l : list A) : list A :=
  match l with
  | [] => []
  | x :: tl => insert x (stable_sort tl)
  end.

(** [sorted(l, key=key, reverse=reverse)]: with [reverse] the list is
    reversed, sorted and reversed again, which keeps equal keys in their
    first order. *)
Definition sorted (reverse : bool) (l : list A) : list A :=
  if reverse then rev (stable_sort (rev l)) else stable_sort l.
End Sorting.

(** [sorted(tenders.values(), key=lambda x: x['uploaded_at'], reverse=True)] *)
Definition tender_list (w : world) : list tender :=
  sorted uploaded_at true (dict_values (tenders w)).

End TenderAI.


Import TenderAI.

(** ** The DOCX cleaner and the routes *)

Module Web.

(** [re.sub(pattern, repl, text)] for a pattern without groups and a
    replacement without escapes: the matches are those of [re.split], and
    the pieces between them are joined by the replacement. *)
Definition sub (ic : bool) (r : regex) (repl text : str) : str :=
  join repl (Re.split ic r text).

(** [<[^>]+>] *)
Definition tag_re : regex :=
  Cat (Chr (chr_of "<"))
      (Cat (Rep (CNot (chr_of ">")) 1 None true) (Chr (chr_of ">"))).

(** [cleaned = re.sub(r'<[^>]+>', '', xml)] *)
Definition clean_xml (xml : str) : str := sub false tag_re [] xml.

(** The body of [extract_text_from_docx]: [document] is the decoded content
    of [word/document.xml], or [None] when opening, reading or decoding
    raised an exception. *)
Definition docx_text_of (document : option str) : str :=
  match document with
  | Some xml => clean_xml xml
  | None => []
  end.

(** [str(n)] for a natural number *)
Definition str_of_nat (n : nat) : str :=
  py (DecimalString.NilEmpty.string_of_uint (Nat.to_uint n)).



(** [(p[:i], p[i:])] with [i = p.rfind('/') + 1] *)
Fixpoint rsplit_slash (p : str) : str * str :=
  match p with
  | [] => ([], [])
  | c :: tl =>
      let (h, t) := rsplit_slash tl in
      match h with
      | _ :: _ => (c :: h, t)
      | [] => if c =? 47 then ([c], t) else ([], c :: t)
      end
  end.

(** [s.rstrip('/')] *)
Fixpoint lstrip_slash (s : str) : str :=
  match s with
  | c :: tl => if c =? 47 then lstrip_slash tl else s
  | [] => []
  end.

Definition rstrip_slash (s : str) : str := rev (lstrip_slash (rev s)).

(** [os.path.basename(p)] on POSIX *)
Definition basename (p : str) : str := snd (rsplit_slash p).

(** [os.path.dirname(p)] on POSIX *)
Definition dirname (p : str) : str :=
  let head := fst (rsplit_slash p) in
  if truthy head && negb (forallb (N.eqb 47) head)
  then rstrip_slash head else head.




(** The variables handed to the detail template (the year of the footer is
    left out). *)
Record detail_vars : Type := mkDetail {
  dv_filename : str;
  dv_uploaded_at : str;
  dv_emd : str;
  dv_due_date : str;
  dv_eligibility : str;
  dv_summary : str;
  dv_full_text : str;
  dv_table_html : str
}.

(** What a route answers: [redirect(url_for('index'))], the rendered detail
    page, or [send_from_directory(directory, filename, as_attachment=True)]. *)
Inductive response : Type :=
| Redirect_index
| Detail_page (v : detail_vars)
| Send_file (directory name : str).

(** The answer of a route, the messages it flashed and the world it
    leaves. *)
Record outcome : Type := mkOutcome {
  resp : response;
  flashes : list str;
  after : world
}.

Section Routes.
Variable E : env.

(** [for f in files: process_file(f)] *)
Fixpoint process_all (files : list upload) : M unit :=
  match files with
  | [] => ret tt
  | f :: fs => _ <- process_file E f ;; process_all fs
  end.

(** [upload]: [request_files] is [request.files.getlist('files')], or [None]
    when the request has no part named [files]. *)
Definition upload (request_files : option (list upload)) (w : world)
  : outcome :=
  match request_files with
  | None => mkOutcome Redirect_index [py "No file part in the request"] w
  | Some files =>
      if match files with
         | [] => true
         | f :: _ => str_eqb (u_filename f) []
         end
      then mkOutcome Redirect_index [py "No files selected"] w
      else
        mkOutcome Redirect_index
                  [py "Uploaded " ++ str_of_nat (length files) ++
                   py " file(s) successfully!"]
                  (snd (process_all files w))
  end.


(** [download] *)
Definition download (tid : str) (w : world) : outcome :=
  match get tid w with
  | None => mkOutcome Redirect_index [py "Tender not found"] w
  | Some t =>
      mkOutcome (Send_file (dirname (path t)) (basename (path t))) [] w
  end.

End Routes.

End Web.

(** ** A sample environment, for concrete runs *)

Module Sample.

Definition ascii_lower (s : str) : str :=
  map (fun c => if (65 <=? c) && (c <=? 90) then c + 32 else c) s.

Definition E : env :=
  mkEnv (py "/srv/app")
        (fun n => py "id" ++ repeat 49 n)
        (fun n => py "2024-05-12T10:00:0" ++ repeat 48 n)
        ascii_lower
        (fun _ _ => py "EMD: Rs. 50,000. Submission date: 12/05/2024.")
        (fun _ _ => py "Total cost INR 75000")
        (fun _ _ => [[py "a"; py "b"]; [py "c"; py "d"]; [py "e"; py "f"]]).

Definition w0 : world := mkWorld [] None [] [] 0.

Definition txt_upload : upload := mkUpload (py "notes.TXT") [1; 2; 3].

Definition xlsx_upload : upload := mkUpload (py "boq.v2.XLSX") [4; 5].

Definition some_tender : tender :=
  mkTender (py "k1") (py "a.pdf") (py "/srv/app/uploads/k1_a.pdf")
           (py "text") [[py "x"; []]; []] (py "s") [rupee; 32; 49] []
           (py "text") (py "2024-05-12T10:00:00.000001").

(** The input of scenario 1. *)
Definition scenario1 : str :=
  py "EMD: Rs. 50,000. Submission date: 12/05/2024. Eligible bidders must be registered vendors...".

End Sample.

(** ** The vocabulary of the properties *)

Section Orders.
Variable A : Type.
Variable key : A -> str.

(** [a] may stand before [b] in ascending order of the key. *)
Definition asc (a b : A) : Prop := str_ltb (key b) (key a) = false.

(** [a] may stand before [b] in descending order of the key. *)
Definition desc (a b : A) : Prop := str_ltb (key a) (key b) = false.

Definition has_key (k : str) (a : A) : bool := str_eqb (key a) k.
End Orders.

(** Sentences, in the words of the summarizer's description: the text is cut
    at every boundary, a run of whitespace that comes right after one of
    ['.'], ['!'], ['?']; the whitespace of the boundary belongs to no
    sentence.  [gap] tells that the reader is inside a boundary, [cur] is the
    sentence read so far, last character first. *)
Definition is_terminator (c : char) : bool :=
  (c =? 46) || (c =? 33) || (c =? 63).

Definition ends_with_terminator (cur : str) : bool :=
  match cur with c :: _ => is_terminator c | [] => false end.

Fixpoint sentences (gap : bool) (cur t : str) : list str :=
  match t with
  | [] => [rev cur]
  | x :: tl =>
      if is_space x && (gap || ends_with_terminator cur) then
        if gap then sentences true cur tl
        else rev cur :: sentences true [] tl
      else sentences false (x :: cur) tl
  end.


(** Does [t] begin with the phrase [p], case ignored? *)
Fixpoint prefix_ci (p t : str) : bool :=
  match p, t with
  | [], _ => true
  | pc :: p', c :: t' => ci_eq pc c && prefix_ci p' t'
  | _ :: _, [] => false
  end.

(** Does [t] contain the phrase [p], case ignored? *)
Fixpoint contains_ci (p t : str) : bool :=
  prefix_ci p t ||
  match t with
  | [] => false
  | _ :: t' => contains_ci p t'
  end.

(** The text holds a deposit-indicator phrase. *)
Definition has_deposit_indicator (text : str) : bool :=
  contains_ci (py "EMD") text || contains_ci (py "Earnest Money Deposit") text.

(** The currency markers. *)
Definition is_marker (m : str) : Prop :=
  m = [rupee] \/ m = py "Rs" \/ m = py "Rs." \/ m = py "INR".

(** The characters of a numeric token: digits, commas, points. *)
Definition is_numeric (c : char) : bool :=
  is_digit c || (c =? 44) || (c =? 46).

(** An occurrence in [text], after [pre], of a currency marker [m] followed,
    after optional whitespace [ws], by a numeric token [num]. *)
Definition money_occurrence (text pre m ws num post : str) : Prop :=
  text = pre ++ m ++ ws ++ num ++ post /\
  is_marker m /\
  forallb is_space ws = true /\
  num <> [] /\ forallb is_numeric num = true.

(** A date-shaped token: one or two digits, a separator, one or two digits, a
    separator, two to four digits; the separators are ['/'] or ['-']. *)
Definition is_date_sep (c : char) : bool := (c =? 47) || (c =? 45).

Definition digits (lo hi : nat) (w : str) : Prop :=
  (lo <= length w <= hi)%nat /\ forallb is_digit w = true.

Definition date_shaped (tok : str) : Prop :=
  exists d s1 m s2 y,
    tok = d ++ [s1] ++ m ++ [s2] ++ y /\
    digits 1 2 d /\ is_date_sep s1 = true /\
    digits 1 2 m /\ is_date_sep s2 = true /\
    digits 2 4 y.

Definition contains_date (text : str) : Prop :=
  exists pre tok post, text = pre ++ tok ++ post /\ date_shaped tok.

(** Are [p] and [w] the same word, case ignored? *)
Fixpoint eq_ci (p w : str) : bool :=
  match p, w with
  | [], [] => true
  | pc :: p', c :: w' => ci_eq pc c && eq_ci p' w'
  | _, _ => false
  end.

(** A currency marker in any case, as the targeted search accepts it. *)
Definition is_marker_ci (m : str) : bool :=
  eq_ci [rupee] m || eq_ci (py "Rs") m || eq_ci (py "Rs.") m ||
  eq_ci (py "INR") m.

(** A whole tag starts right after a ['<'] that is followed by [t]: at least
    one character other than ['>'], then ['>']. *)
Definition not_gt (c : char) : bool := negb (c =? 62).

Definition tag_at (t : str) : bool :=
  (1 <=? length (fst (span not_gt t)))%nat &&
  match snd (span not_gt t) with
  | [] => false
  | _ :: _ => true
  end.

(** No whole tag starts anywhere in [s]. *)
Fixpoint tag_free (s : str) : bool :=
  match s with
  | [] => true
  | c :: tl => (if c =? 60 then negb (tag_at tl) else true) && tag_free tl
  end.

(** The cleaning of a document written out: a whole tag is stepped over,
    every other character is kept.  [skip] counts the characters of the
    current tag still to step over. *)
Fixpoint untag (skip : nat) (t : str) : str :=
  match t with
  | [] => []
  | x :: tl =>
      match skip with
      | S n => untag n tl
      | O =>
          if (x =? 60) && tag_at tl
          then untag (S (length (fst (span not_gt tl)))) tl
          else x :: untag 0 tl
      end
  end.

(** Words for the pieces of a summary.  [no_boundary prev p]: no whitespace of
    [p] comes right after a terminator, [prev] telling whether a terminator
    stands before [p]. *)
Fixpoint no_boundary (prev : bool) (p : str) : bool :=
  match p with
  | [] => true
  | x :: tl => negb (is_space x && prev) && no_boundary (is_terminator x) tl
  end.

(** The last character, if there is one, is no whitespace. *)
Definition last_ok (t : str) : bool :=
  match rev t with
  | [] => true
  | x :: _ => negb (is_space x)
  end.

(** The first character is there and is no whitespace. *)
Definition starts_nonspace (p : str) : bool :=
  match p with
  | x :: _ => negb (is_space x)
  | [] => false
  end.

(** Pieces that are sentences of their own joining: none has a boundary
    inside, each but the last ends with a terminator, each but the first
    starts with a character that is no whitespace, and the last does not end
    with whitespace. *)
Fixpoint good (l : list str) : bool :=
  match l with
  | [] => false
  | p :: l' =>
      no_boundary false p &&
      match l' with
      | [] => last_ok p
      | q :: _ => ends_with_terminator (rev p) && starts_nonspace q && good l'
      end
  end.

(** Every stored tender lies under its own id. *)
Definition ids_match (d : dict tender) : Prop :=
  forall k t, In (k, t) d -> id_ t = k.


(** ** Facts about strings and dictionaries *)

Section StrFacts.

Lemma str_eqb_eq (a b : str) : str_eqb a b = true <-> a = b.
Proof.
  revert b; induction a as [|x a IH]; intros [|y b]; simpl;
    try (split; intro H; [discriminate | inversion H]); try tauto.
  rewrite andb_true_iff, N.eqb_eq, IH.
  split; [intros [-> ->]; reflexivity | intro H; inversion H; auto].
Qed.

Lemma str_eqb_refl (a : str) : str_eqb a a = true.
Proof. apply str_eqb_eq; reflexivity. Qed.

Lemma str_ltb_irrefl (a : str) : str_ltb a a = false.
Proof.
  induction a as [|x a IH]; simpl; auto.
  rewrite N.ltb_irrefl; exact IH.
Qed.

Lemma str_ltb_asym (a b : str) :
  str_ltb a b = true -> str_ltb b a = false.
Proof.
  revert b; induction a as [|x a IH]; intros [|y b]; simpl; auto;
    try discriminate.
  destruct (x <? y) eqn:Hxy, (y <? x) eqn:Hyx; auto; try discriminate.
  apply N.ltb_lt in Hxy, Hyx. lia.
Qed.

(** [<] on strings is a strict weak order: what is below [c] is below [b]
    or [b] is below [c]. *)
Lemma str_ltb_cotrans (a b c : str) :
  str_ltb a c = true -> str_ltb a b = true \/ str_ltb b c = true.
Proof.
  revert b c; induction a as [|x a IH]; intros [|y b] [|z c]; simpl; auto;
    try discriminate.
  destruct (x <? z) eqn:Hxz.
  - intros _. destruct (x <? y) eqn:Hxy; auto.
    destruct (y <? x) eqn:Hyx.
    + right. apply N.ltb_lt in Hxz, Hyx.
      assert (Hyz : (y <? z) = true) by (apply N.ltb_lt; lia).
      rewrite Hyz; reflexivity.
    + apply N.ltb_ge in Hxy, Hyx. assert (x = y) by lia; subst y.
      rewrite Hxz; auto.
  - destruct (z <? x) eqn:Hzx; try discriminate. intro Hac.
    apply N.ltb_ge in Hxz, Hzx. assert (x = z) by lia; subst z.
    destruct (x <? y) eqn:Hxy; auto.
    destruct (y <? x) eqn:Hyx; auto.
Qed.

(** Under [re.IGNORECASE] a pattern character below the letters matches
    itself only. *)
Lemma ci_eq_low (p x : char) : p < 65 -> ci_eq p x = (x =? p).
Proof.
  intro Hp.
  assert (Hlo : sre_lower p = p).
  { unfold sre_lower. destruct (N.leb_spec 65 p); [lia|]. simpl.
    destruct (N.eqb_spec p 304); [lia|].
    destruct (N.eqb_spec p 8490); [lia|]. reflexivity. }
  unfold ci_eq. rewrite Hlo. unfold sre_fixes.
  destruct (N.eqb_spec p 105); [lia|].
  destruct (N.eqb_spec p 115); [lia|].
  simpl. rewrite orb_false_r. unfold sre_lower.
  destruct (N.leb_spec 65 x), (N.leb_spec x 90); simpl;
    destruct (N.eqb_spec x 304); destruct (N.eqb_spec x 8490);
    destruct (N.eqb_spec x p);
    repeat match goal with
           | |- context [?a =? ?b] => destruct (N.eqb_spec a b)
           end; auto; lia.
Qed.

End StrFacts.

Section DictFacts.
Variable V : Type.

Lemma dict_get_set_same (d : dict V) (k : str) (v : V) :
  dict_get (dict_set d k v) k = Some v.
Proof.
  induction d as [|[k' v'] d IH]; simpl.
  - rewrite str_eqb_refl; reflexivity.
  - destruct (str_eqb k' k) eqn:Hk; simpl.
    + rewrite str_eqb_refl; reflexivity.
    + rewrite Hk; exact IH.
Qed.

Lemma dict_set_fresh (d : dict V) (k : str) (v : V) :
  ~ In k (dict_keys d) -> dict_set d k v = d ++ [(k, v)].
Proof.
  induction d as [|[k' v'] d IH]; simpl; intro Hk; auto.
  destruct (str_eqb k' k) eqn:Hkk.
  - apply str_eqb_eq in Hkk; tauto.
  - rewrite IH; tauto.
Qed.

Lemma dict_keys_set (d : dict V) (k : str) (v : V) :
  dict_keys (dict_set d k v) =
  if existsb (fun k' => str_eqb k' k) (dict_keys d)
  then dict_keys d else dict_keys d ++ [k].
Proof.
  induction d as [|[k' v'] d IH]; simpl; auto.
  destruct (str_eqb k' k) eqn:Hkk; simpl.
  - apply str_eqb_eq in Hkk; subst; reflexivity.
  - rewrite IH. destruct (existsb _ (dict_keys d)); reflexivity.
Qed.

(** Assignment keeps the keys distinct. *)
Lemma dict_set_wf (d : dict V) (k : str) (v : V) :
  dict_wf d -> dict_wf (dict_set d k v).
Proof.
  unfold dict_wf; intro Hd. rewrite dict_keys_set.
  destruct (existsb _ (dict_keys d)) eqn:Hex; auto.
  apply NoDup_app; auto.
  - constructor; [intros [] | constructor].
  - intros x Hx [<-|[]].
    assert (existsb (fun k' => str_eqb k' k) (dict_keys d) = true)
      by (apply existsb_exists; exists k; split; auto using str_eqb_refl).
    congruence.
Qed.

Lemma fold_dict_set (l acc : dict V) :
  NoDup (dict_keys acc ++ dict_keys l) ->
  fold_left (fun d kv => dict_set d (fst kv) (snd kv)) l acc = acc ++ l.
Proof.
  revert acc; induction l as [|[k v] l IH]; intros acc Hnd; simpl.
  - rewrite app_nil_r; reflexivity.
  - simpl in Hnd. rewrite dict_set_fresh.
    + rewrite IH.
      * rewrite <- app_assoc; reflexivity.
      * unfold dict_keys in *. rewrite map_app, <- app_assoc. exact Hnd.
    + apply NoDup_remove_2 in Hnd. intro Hin; apply Hnd.
      apply in_or_app; auto.
Qed.

(** A dictionary is rebuilt from its own items. *)
Lemma dict_of_items_id (d : dict V) : dict_wf d -> dict_of_items d = d.
Proof.
  intro Hd. unfold dict_of_items. rewrite fold_dict_set; auto.
Qed.

End DictFacts.

(** ** The record store *)

Section StoreFacts.

Lemma all_some_map (A B : Type) (f : A -> option B) (g : A -> B)
      (l : list A) :
  (forall a, In a l -> f a = Some (g a)) ->
  all_some (map f l) = Some (map g l).
Proof.
  induction l as [|a l IH]; simpl; intro H; auto.
  rewrite (H a), IH by auto. reflexivity.
Qed.

Lemma rows_of_json_of_rows (r : rows) : rows_of_json (json_of_rows r) = Some r.
Proof.
  unfold json_of_rows; simpl. rewrite map_map.
  rewrite (all_some_map _ (fun row => row)).
  - rewrite map_id; reflexivity.
  - intros row _. simpl. rewrite map_map.
    rewrite (all_some_map _ (fun c => c)); [rewrite map_id|]; auto.
Qed.

(** A tender dictionary is read back from its own document, field by
    field. *)
Lemma tender_of_json_of_tender (t : tender) :
  tender_of_json (json_of_tender t) = Some t.
Proof.
  destruct t as [a b c d r f g h i k].
  pose proof (rows_of_json_of_rows r) as Hr.
  unfold tender_of_json, json_of_tender; simpl id_; simpl table_rows.
  generalize dependent (json_of_rows r); intros jr Hr.
  cbv - [rows_of_json]. rewrite Hr. reflexivity.
Qed.

Lemma combine_fst_snd (A B : Type) (l : list (A * B)) :
  combine (map fst l) (map snd l) = l.
Proof. induction l as [|[a b] l IH]; simpl; congruence. Qed.

Lemma tenders_of_json_of_tenders (d : dict tender) :
  dict_wf d -> tenders_of_json (json_of_tenders d) = Some d.
Proof.
  intro Hd. unfold tenders_of_json, json_of_tenders.
  rewrite !map_map; simpl.
  rewrite (all_some_map _ snd)
    by (intros; apply tender_of_json_of_tender).
  rewrite combine_fst_snd, dict_of_items_id; auto.
Qed.

(** The start-up load always yields a dictionary with distinct keys. *)
Lemma load_tenders_wf (f : option json) (d : dict tender) :
  load_tenders f = Some d -> dict_wf d.
Proof.
  destruct f as [[s|l|l]|]; simpl; try discriminate.
  - destruct (all_some _); try discriminate.
    intro H; inversion H; subst; clear H.
    unfold dict_of_items.
    assert (G : forall (x : list (str * tender)) acc, dict_wf acc ->
              dict_wf (fold_left
                         (fun d kv => dict_set d (fst kv) (snd kv)) x acc)).
    { induction x as [|kv x IH]; simpl; intros acc Hacc; auto.
      apply IH, dict_set_wf, Hacc. }
    apply G; constructor.
  - intro H; inversion H; constructor.
Qed.

End StoreFacts.

(** ** Sorting *)

Section SortFacts.
Variable A : Type.
Variable key : A -> str.

Lemma insert_perm (x : A) (l : list A) : Permutation (x :: l) (insert key x l).
Proof.
  induction l as [|y l IH]; simpl; auto.
  destruct (str_ltb (key y) (key x)); auto.
  eapply perm_trans; [apply perm_swap|]. auto.
Qed.

Lemma stable_sort_perm (l : list A) : Permutation l (stable_sort key l).
Proof.
  induction l as [|x l IH]; simpl; auto.
  eapply perm_trans; [|apply insert_perm]. auto.
Qed.

Lemma insert_sorted (x : A) (l : list A) :
  StronglySorted (asc key) l -> StronglySorted (asc key) (insert key x l).
Proof.
  induction 1 as [|y l Hl IH Hy]; simpl.
  - repeat constructor.
  - destruct (str_ltb (key y) (key x)) eqn:Hyx.
    + constructor; auto.
      rewrite Forall_forall in *. intros z Hz.
      apply (Permutation_in _ (Permutation_sym (insert_perm x l))) in Hz.
      destruct Hz as [<-|Hz]; auto.
      unfold asc. apply str_ltb_asym; exact Hyx.
    + constructor; [constructor; auto|].
      constructor; [exact Hyx|].
      rewrite Forall_forall in *. intros z Hz. specialize (Hy z Hz).
      unfold asc in *.
      destruct (str_ltb (key z) (key x)) eqn:Hzx; auto.
      destruct (str_ltb_cotrans _ (key y) _ Hzx); congruence.
Qed.

Lemma stable_sort_sorted (l : list A) : StronglySorted (asc key) (stable_sort key l).
Proof.
  induction l; simpl; [constructor | apply insert_sorted; auto].
Qed.

Lemma insert_filter (k : str) (x : A) (l : list A) :
  filter (has_key key k) (insert key x l) = filter (has_key key k) (x :: l).
Proof.
  induction l as [|y l IH]; simpl; auto.
  destruct (str_ltb (key y) (key x)) eqn:Hyx; simpl; auto.
  simpl in IH. rewrite IH. unfold has_key.
  destruct (str_eqb (key x) k) eqn:Hx, (str_eqb (key y) k) eqn:Hy; auto.
  apply str_eqb_eq in Hx, Hy. rewrite Hx, Hy, str_ltb_irrefl in Hyx.
  discriminate.
Qed.

Lemma stable_sort_filter (k : str) (l : list A) :
  filter (has_key key k) (stable_sort key l) = filter (has_key key k) l.
Proof.
  induction l as [|x l IH]; simpl; auto.
  rewrite insert_filter; simpl. rewrite IH; reflexivity.
Qed.

Lemma filter_rev (f : A -> bool) (l : list A) :
  filter f (rev l) = rev (filter f l).
Proof.
  induction l as [|x l IH]; simpl; auto.
  rewrite filter_app, IH; simpl. destruct (f x); simpl; auto.
  rewrite app_nil_r; reflexivity.
Qed.

Lemma sorted_rev (l : list A) :
  StronglySorted (asc key) l -> StronglySorted (desc key) (rev l).
Proof.
  induction 1 as [|x l Hl IH Hx]; simpl; [constructor|].
  assert (G : forall m, StronglySorted (desc key) m -> Forall (fun y => desc key y x) m ->
                        StronglySorted (desc key) (m ++ [x])).
  { induction 1 as [|y m Hm IHm Hy]; simpl; intro Hall.
    - repeat constructor.
    - inversion Hall; subst. constructor; auto.
      apply Forall_app; split; auto. }
  apply G; auto.
  rewrite Forall_forall in *. intros y Hy. apply in_rev in Hy. apply Hx, Hy.
Qed.

(** [sorted] with [reverse=True]: a rearrangement in descending order that
    keeps the elements of each key in their order. *)
Lemma sorted_reverse_spec (l : list A) :
  Permutation (sorted key true l) l /\
  StronglySorted (desc key) (sorted key true l) /\
  forall k, filter (has_key key k) (sorted key true l) = filter (has_key key k) l.
Proof.
  unfold sorted. split; [|split].
  - eapply perm_trans; [apply Permutation_sym, Permutation_rev|].
    eapply perm_trans; [apply Permutation_sym, stable_sort_perm|].
    apply Permutation_sym, Permutation_rev.
  - apply sorted_rev, stable_sort_sorted.
  - intro k. rewrite filter_rev, stable_sort_filter, filter_rev, rev_involutive.
    reflexivity.
Qed.

End SortFacts.

(** ** The matcher against what a pattern matches *)

Section RunFacts.
Variable R : Type.
Variable ic : bool.

Lemma rev_cons_app (x : char) (w b : str) :
  rev (x :: w) ++ b = rev w ++ x :: b.
Proof. simpl. rewrite <- app_assoc. reflexivity. Qed.

Lemma consumed_app (b b' w t' : str) (c c' : list (nat * str)) :
  consumed (mkState b (w ++ t') c) (mkState b' t' c') = w.
Proof.
  unfold consumed; simpl. rewrite length_app.
  replace (length w + length t' - length t')%nat with (length w) by lia.
  rewrite firstn_app, firstn_all, Nat.sub_diag. simpl.
  apply app_nil_r.
Qed.

(** Whatever the repetition hands to its continuation is a run of the set
    within the bounds. *)
Lemma rep_sound (cs : cset) (g : bool) :
  forall t lo hi b c (k : state -> option R) v,
    rep ic cs g lo hi b t c k = Some v ->
    exists w t',
      t = w ++ t' /\ (lo <= length w)%nat /\
      match hi with Some h => (length w <= h)%nat | None => True end /\
      forallb (cset_mem ic cs) w = true /\
      k (mkState (rev w ++ b) t' c) = Some v.
Proof.
  assert (Hstop : forall t lo hi b c (k : state -> option R) v,
    match lo with O => k (mkState b t c) | S _ => None end = Some v ->
    exists w t',
      t = w ++ t' /\ (lo <= length w)%nat /\
      match hi with Some h => (length w <= h)%nat | None => True end /\
      forallb (cset_mem ic cs) w = true /\
      k (mkState (rev w ++ b) t' c) = Some v).
  { intros t lo hi b c k v H. destruct lo; try discriminate.
    exists [], t. simpl. repeat split; auto. destruct hi; auto; lia. }
  induction t as [|x tl IH]; intros lo hi b c k v H; simpl in H.
  - destruct (hi_zero hi); eauto.
  - destruct (hi_zero hi) eqn:Hz; eauto.
    destruct (cset_mem ic cs x) eqn:Hx; eauto.
    assert (Hmore : forall v',
      rep ic cs g (pred lo) (hi_pred hi) (x :: b) tl c k = Some v' ->
      exists w t',
        x :: tl = w ++ t' /\ (lo <= length w)%nat /\
        match hi with Some h => (length w <= h)%nat | None => True end /\
        forallb (cset_mem ic cs) w = true /\
        k (mkState (rev w ++ b) t' c) = Some v').
    { intros v' Hv'. apply IH in Hv'.
      destruct Hv' as (w & t' & -> & Hlo & Hhi & Hall & Hk).
      exists (x :: w), t'. rewrite rev_cons_app. simpl. rewrite Hx, Hall.
      repeat split; auto; try lia.
      destruct hi as [[|h]|]; simpl in *; auto; try discriminate; lia. }
    destruct g.
    + destruct (rep ic cs true (pred lo) (hi_pred hi) (x :: b) tl c k) eqn:Hm.
      * inversion H; subst; eauto.
      * eauto.
    + destruct lo; eauto.
      destruct (k (mkState b (x :: tl) c)) eqn:Hk.
      * inversion H; subst. apply (Hstop (x :: tl) 0%nat hi b c k v).
        exact Hk.
      * eauto.
Qed.

(** A run of the set within the bounds, after which the continuation
    succeeds, makes the repetition succeed. *)
Lemma rep_complete (cs : cset) (g : bool) :
  forall w lo hi b t' c (k : state -> option R),
    (lo <= length w)%nat ->
    match hi with Some h => (length w <= h)%nat | None => True end ->
    forallb (cset_mem ic cs) w = true ->
    k (mkState (rev w ++ b) t' c) <> None ->
    rep ic cs g lo hi b (w ++ t') c k <> None.
Proof.
  induction w as [|x w IH]; intros lo hi b t' c k Hlo Hhi Hall Hk.
  - simpl in *. assert (lo = 0%nat) by lia; subst lo.
    destruct t' as [|y tl]; simpl.
    + destruct (hi_zero hi); auto.
    + destruct (hi_zero hi); auto.
      destruct (cset_mem ic cs y); auto.
      destruct g.
      * destruct (rep ic cs true 0 (hi_pred hi) (y :: b) tl c k);
          [discriminate | auto].
      * destruct (k (mkState b (y :: tl) c)); [discriminate | tauto].
  - simpl in Hall. apply andb_true_iff in Hall. destruct Hall as [Hx Hall].
    simpl. destruct (hi_zero hi) eqn:Hz.
    { destruct hi as [[|h]|]; simpl in *; try discriminate; lia. }
    rewrite Hx.
    assert (Hmore :
      rep ic cs g (pred lo) (hi_pred hi) (x :: b) (w ++ t') c k <> None).
    { apply IH; auto.
      - simpl in Hlo; lia.
      - destruct hi as [[|h]|]; simpl in *; auto; lia.
      - rewrite <- rev_cons_app; exact Hk. }
    destruct g.
    + destruct (rep ic cs true (pred lo) (hi_pred hi) (x :: b) (w ++ t') c k);
        [discriminate | tauto].
    + destruct lo; auto.
      destruct (k (mkState b (x :: w ++ t') c)); [discriminate | auto].
Qed.

(** A greedy repetition without upper bound, before a continuation that
    cannot fail, takes the whole run. *)
Lemma rep_greedy_exact (cs : cset) :
  forall t lo b c (k : state -> option R),
    (forall s, k s <> None) ->
    rep ic cs true lo None b t c k =
    if (lo <=? length (fst (span (cset_mem ic cs) t)))%nat
    then k (mkState (rev (fst (span (cset_mem ic cs) t)) ++ b)
                    (snd (span (cset_mem ic cs) t)) c)
    else None.
Proof.
  induction t as [|x tl IH]; intros lo b c k Hk; simpl.
  - destruct lo; reflexivity.
  - destruct (cset_mem ic cs x) eqn:Hx.
    + rewrite IH by auto.
      destruct (span (cset_mem ic cs) tl) as [w t'] eqn:Hs. simpl fst; simpl snd.
      rewrite rev_cons_app.
      destruct (pred lo <=? length w)%nat eqn:Hle.
      * apply Nat.leb_le in Hle.
        assert (Hle' : (lo <=? length (x :: w))%nat = true)
          by (apply Nat.leb_le; simpl; lia).
        rewrite Hle'.
        destruct (k (mkState (rev w ++ x :: b) t' c)) eqn:Hkk; auto.
        exfalso; eapply Hk; eauto.
      * apply Nat.leb_gt in Hle.
        assert (Hle' : (lo <=? length (x :: w))%nat = false)
          by (apply Nat.leb_gt; simpl; lia).
        rewrite Hle'. destruct lo; auto. simpl in Hle; lia.
    + simpl. destruct lo; reflexivity.
Qed.

(** Soundness: when the matcher succeeds, the pattern matched a prefix of
    the text at the cursor and the continuation went on from its end. *)
Lemma run_sound :
  forall r s (k : state -> option R) v,
    run ic r s k = Some v ->
    exists w t' c',
      rest s = w ++ t' /\
      matches ic r (before s) w (caps s) c' /\
      k (mkState (rev w ++ before s) t' c') = Some v.
Proof.
  induction r as [|cs|r1 IH1 r2 IH2|r1 IH1 r2 IH2|r1 IH1|cs lo hi g|n r1 IH1|cs];
    intros [b t c] k v H; simpl in *.
  - exists [], t, c. repeat split; auto. constructor.
  - destruct t as [|x tl]; try discriminate.
    destruct (cset_mem ic cs x) eqn:Hx; try discriminate.
    exists [x], tl, c. repeat split; auto. constructor; auto.
  - apply IH1 in H. destruct H as (w1 & t1 & c1 & Ht & Hm1 & H).
    apply IH2 in H. destruct H as (w2 & t2 & c2 & Ht2 & Hm2 & H).
    simpl in *. subst.
    exists (w1 ++ w2), t2, c2. rewrite app_assoc. repeat split; auto.
    + econstructor; eauto.
    + rewrite rev_app_distr, <- app_assoc. exact H.
  - destruct (run ic r1 (mkState b t c) k) eqn:H1.
    + inversion H; subst. apply IH1 in H1.
      destruct H1 as (w & t' & c' & ? & ? & ?).
      exists w, t', c'. repeat split; auto. apply M_AltL; auto.
    + apply IH2 in H. destruct H as (w & t' & c' & ? & ? & ?).
      exists w, t', c'. repeat split; auto. apply M_AltR; auto.
  - destruct (run ic r1 (mkState b t c) k) eqn:H1.
    + inversion H; subst. apply IH1 in H1.
      destruct H1 as (w & t' & c' & ? & ? & ?).
      exists w, t', c'. repeat split; auto. apply M_OptSome; auto.
    + exists [], t, c. repeat split; auto. apply M_OptNone.
  - apply rep_sound in H.
    destruct H as (w & t' & -> & Hlo & Hhi & Hall & Hk).
    exists w, t', c. repeat split; auto. constructor; auto.
  - apply IH1 in H. destruct H as (w & t' & c' & Ht & Hm & H).
    simpl in *. subst. rewrite consumed_app in H.
    exists w, t', (set_cap n w c'). repeat split; auto.
    constructor; auto.
  - destruct b as [|x b]; try discriminate.
    destruct (cset_mem ic cs x) eqn:Hx; try discriminate.
    exists [], t, c. repeat split; auto. constructor; auto.
Qed.

(** Completeness: when the pattern matches a prefix of the text at the
    cursor and the continuation succeeds from its end whatever the groups,
    the matcher succeeds. *)
Lemma run_complete :
  forall r b w c c',
    matches ic r b w c c' ->
    forall t0 c0 t' (k : state -> option R),
      t0 = w ++ t' ->
      (forall c'', k (mkState (rev w ++ b) t' c'') <> None) ->
      run ic r (mkState b t0 c0) k <> None.
Proof.
  induction 1 as [b c|cs b x c Hx|r1 r2 b w1 w2 c c1 c2 H1 IH1 H2 IH2
                 |r1 r2 b w c c' H1 IH1|r1 r2 b w c c' H1 IH1
                 |r1 b w c c' H1 IH1|r1 b c
                 |cs lo hi g b w c Hlo Hhi Hall
                 |n r1 b w c c' H1 IH1|cs b x c Hx];
    intros t0 c0 t' k -> Hk; simpl.
  - apply Hk.
  - rewrite Hx. apply Hk.
  - apply (IH1 _ c0 (w2 ++ t')); [apply eq_sym, app_assoc|].
    intro c''. apply (IH2 _ c'' t'); auto.
    intro c3. specialize (Hk c3).
    rewrite rev_app_distr, <- app_assoc in Hk. exact Hk.
  - destruct (run ic r1 (mkState b (w ++ t') c0) k) eqn:Hr;
      [discriminate|]. exfalso. revert Hr. apply (IH1 _ c0 t'); auto.
  - destruct (run ic r1 (mkState b (w ++ t') c0) k) eqn:Hr;
      [discriminate|]. apply (IH1 _ c0 t'); auto.
  - destruct (run ic r1 (mkState b (w ++ t') c0) k) eqn:Hr;
      [discriminate|]. exfalso. revert Hr. apply (IH1 _ c0 t'); auto.
  - destruct (run ic r1 (mkState b t' c0) k) eqn:Hr; [discriminate|].
    apply Hk.
  - apply rep_complete; auto.
  - apply (IH1 _ c0 t'); auto.
  - rewrite Hx. apply Hk.
Qed.

End RunFacts.

(** ** [re.search] finds the leftmost place where the pattern matches *)

Section SearchFacts.
Variable ic : bool.
Variable r : regex.

Lemma match_here_sound (b t : str) (s' : state) :
  match_here ic r false b t = Some s' ->
  exists w t',
    t = w ++ t' /\ matches ic r b w [] (caps s') /\
    s' = mkState (rev w ++ b) t' (caps s').
Proof.
  unfold match_here. intro H. apply run_sound in H.
  destruct H as (w & t' & c' & Ht & Hm & Hk). simpl in *.
  inversion Hk; subst. exists w, t'. auto.
Qed.

Lemma match_here_complete (b w t' : str) (c c' : list (nat * str)) :
  matches ic r b w c c' -> match_here ic r false b (w ++ t') <> None.
Proof.
  unfold match_here. intro H.
  eapply run_complete; eauto. simpl. discriminate.
Qed.

Lemma search_from_sound :
  forall t pos b m,
    search_from ic r pos b t = Some m ->
    exists pre w post,
      t = pre ++ w ++ post /\
      m_start m = (pos + length pre)%nat /\ m_text m = w /\
      matches ic r (rev pre ++ b) w [] (m_caps m) /\
      forall pre' w' post' c c',
        t = pre' ++ w' ++ post' ->
        matches ic r (rev pre' ++ b) w' c c' ->
        (length pre <= length pre')%nat.
Proof.
  induction t as [|x tl IH]; intros pos b m H; simpl in H.
  - destruct (match_here ic r false b []) as [s'|] eqn:Hm; try discriminate.
    inversion H; subst; clear H. apply match_here_sound in Hm.
    destruct Hm as (w & t' & Ht & Hm & Hs). rewrite Hs. simpl caps.
    rewrite Ht, consumed_app.
    exists [], w, t'. simpl. repeat split; auto; try lia.
  - destruct (match_here ic r false b (x :: tl)) as [s'|] eqn:Hm.
    + inversion H; subst; clear H. apply match_here_sound in Hm.
      destruct Hm as (w & t' & Ht & Hm & Hs). rewrite Hs. simpl caps.
      rewrite Ht, consumed_app.
      exists [], w, t'. simpl. repeat split; auto; try lia.
    + apply IH in H.
      destruct H as (pre & w & post & Ht & Hst & Htx & Hmt & Hleft).
      exists (x :: pre), w, post. rewrite rev_cons_app. simpl.
      repeat split; auto; try lia.
      * rewrite Ht; reflexivity.
      * intros [|y pre'] w' post' c c' Ht' Hm'.
        -- simpl in *. exfalso.
           apply (match_here_complete post') in Hm'.
           rewrite <- Ht' in Hm'. congruence.
        -- simpl in Ht'. inversion Ht'; subst y.
           rewrite rev_cons_app in Hm'.
           specialize (Hleft pre' w' post' c c' H1 Hm'). simpl; lia.
Qed.

(** The same with the attempt that succeeded in view: it is the first
    attempt, from the left, that does. *)
Lemma search_from_here :
  forall t pos b m,
    search_from ic r pos b t = Some m ->
    exists pre t1 s',
      t = pre ++ t1 /\
      match_here ic r false (rev pre ++ b) t1 = Some s' /\
      m = mkMatch (pos + length pre)
                  (firstn (length t1 - length (rest s')) t1) (caps s') /\
      forall pre' w' post' c c',
        t = pre' ++ w' ++ post' ->
        matches ic r (rev pre' ++ b) w' c c' ->
        (length pre <= length pre')%nat.
Proof.
  assert (Hnow : forall t pos b s',
    match_here ic r false b t = Some s' ->
    exists pre t1 s'0,
      t = pre ++ t1 /\
      match_here ic r false (rev pre ++ b) t1 = Some s'0 /\
      mkMatch pos (consumed (mkState b t []) s') (caps s') =
      mkMatch (pos + length pre)
              (firstn (length t1 - length (rest s'0)) t1) (caps s'0) /\
      forall pre' w' post' c c',
        t = pre' ++ w' ++ post' ->
        matches ic r (rev pre' ++ b) w' c c' ->
        (length pre <= length pre')%nat).
  { intros t pos b s' Hm. exists [], t, s'. simpl.
    rewrite Nat.add_0_r. repeat split; auto. intros; lia. }
  induction t as [|x tl IH]; intros pos b m H; simpl in H.
  - destruct (match_here ic r false b []) as [s'|] eqn:Hm; try discriminate.
    inversion H; subst; clear H. eapply Hnow; eauto.
  - destruct (match_here ic r false b (x :: tl)) as [s'|] eqn:Hm.
    + inversion H; subst; clear H. eapply Hnow; eauto.
    + apply IH in H.
      destruct H as (pre & t1 & s' & Ht & Hh & Hmm & Hleft).
      exists (x :: pre), t1, s'. rewrite rev_cons_app. simpl.
      repeat split; auto.
      * rewrite Ht; reflexivity.
      * rewrite Hmm. f_equal. lia.
      * intros [|y pre'] w' post' c c' Ht' Hm'.
        -- simpl in *. exfalso.
           apply (match_here_complete post') in Hm'.
           rewrite <- Ht' in Hm'. congruence.
        -- simpl in Ht'. inversion Ht'; subst y.
           rewrite rev_cons_app in Hm'.
           specialize (Hleft pre' w' post' c c' H1 Hm'). simpl; lia.
Qed.

Lemma search_from_complete :
  forall pre pos b w post c c',
    matches ic r (rev pre ++ b) w c c' ->
    search_from ic r pos b (pre ++ w ++ post) <> None.
Proof.
  induction pre as [|x pre IH]; intros pos b w post c c' Hm.
  - simpl in Hm. apply (match_here_complete post) in Hm.
    simpl app. destruct (w ++ post); simpl;
      destruct (match_here ic r false b _); try discriminate; tauto.
  - rewrite rev_cons_app in Hm. simpl.
    destruct (match_here ic r false b (x :: pre ++ w ++ post));
      [discriminate|]. eapply IH; eauto.
Qed.

(** [re.search] returns a match exactly when the pattern matches somewhere
    in the text; the match it returns starts at the leftmost such place. *)
Lemma search_sound (text : str) (m : match_obj) :
  search ic r text = Some m ->
  exists pre post,
    text = pre ++ m_text m ++ post /\
    m_start m = length pre /\
    matches ic r (rev pre) (m_text m) [] (m_caps m) /\
    forall pre' w' post' c c',
      text = pre' ++ w' ++ post' ->
      matches ic r (rev pre') w' c c' ->
      (length pre <= length pre')%nat.
Proof.
  unfold search. intro H. apply search_from_sound in H.
  destruct H as (pre & w & post & Ht & Hst & Htx & Hmt & Hleft).
  exists pre, post. subst w. rewrite app_nil_r in Hmt.
  repeat split; auto.
  intros pre' w' post' c c' Ht' Hm'.
  apply (Hleft pre' w' post' c c'); auto. rewrite app_nil_r; auto.
Qed.

Lemma search_here (text : str) (m : match_obj) :
  search ic r text = Some m ->
  exists pre t1 s',
    text = pre ++ t1 /\
    match_here ic r false (rev pre) t1 = Some s' /\
    m = mkMatch (length pre)
                (firstn (length t1 - length (rest s')) t1) (caps s') /\
    forall pre' w' post' c c',
      text = pre' ++ w' ++ post' ->
      matches ic r (rev pre') w' c c' ->
      (length pre <= length pre')%nat.
Proof.
  unfold search. intro H. apply search_from_here in H.
  destruct H as (pre & t1 & s' & Ht & Hh & Hm & Hleft).
  exists pre, t1, s'. rewrite app_nil_r in Hh. repeat split; auto.
  intros pre' w' post' c c' Ht' Hm'.
  apply (Hleft pre' w' post' c c'); auto. rewrite app_nil_r; auto.
Qed.

Lemma search_complete (pre w post : str) (c c' : list (nat * str)) :
  matches ic r (rev pre) w c c' ->
  search ic r (pre ++ w ++ post) <> None.
Proof.
  intro H. unfold search. eapply search_from_complete.
  rewrite app_nil_r. eauto.
Qed.

End SearchFacts.

(** ** The sentence splitter *)

Section SplitFacts.

Lemma span_ext (f g : char -> bool) (t : str) :
  (forall x, f x = g x) -> span f t = span g t.
Proof.
  intro H. induction t as [|x tl IH]; simpl; auto.
  rewrite H, IH. reflexivity.
Qed.

Lemma span_cons_true (f : char -> bool) (x : char) (tl : str) :
  f x = true ->
  fst (span f (x :: tl)) = x :: fst (span f tl) /\
  snd (span f (x :: tl)) = snd (span f tl).
Proof. intro H. simpl. rewrite H. destruct (span f tl); auto. Qed.

Lemma span_cons_false (f : char -> bool) (x : char) (tl : str) :
  f x = false -> span f (x :: tl) = ([], x :: tl).
Proof. intro H. simpl. rewrite H. reflexivity. Qed.

Lemma span_length (f : char -> bool) (t : str) :
  length t = (length (fst (span f t)) + length (snd (span f t)))%nat.
Proof.
  induction t as [|x tl IH]; simpl; auto.
  destruct (f x); simpl; auto.
  destruct (span f tl); simpl in *. lia.
Qed.

Lemma cset_mem_union (ic : bool) (a b : cset) (x : char) :
  cset_mem ic (CUnion a b) x = cset_mem ic a x || cset_mem ic b x.
Proof. reflexivity. Qed.

(** A literal below the letters matches itself, whatever the flag. *)
Lemma cset_mem_low (ic : bool) (p x : char) :
  p < 65 -> cset_mem ic (CChar p) x = (x =? p).
Proof.
  intro Hp. destruct ic.
  - change (cset_mem true (CChar p) x) with (ci_eq p x).
    apply ci_eq_low, Hp.
  - change (cset_mem false (CChar p) x) with (p =? x). apply N.eqb_sym.
Qed.

Lemma terminator_mem (ic : bool) (x : char) :
  cset_mem ic terminator x = is_terminator x.
Proof.
  unfold is_terminator, terminator.
  change (chr_of ".") with (CChar 46).
  change (chr_of "!") with (CChar 33).
  change (chr_of "?") with (CChar 63).
  rewrite !cset_mem_union, !cset_mem_low by reflexivity.
  apply orb_assoc.
Qed.

(** One attempt of the sentence pattern: it succeeds exactly behind a
    terminator and before whitespace, and takes the whole run of
    whitespace. *)
Lemma match_here_sentence (b t : str) :
  match_here false sentence_re false b t =
  if ends_with_terminator b &&
     (1 <=? length (fst (span is_space t)))%nat
  then Some (mkState (rev (fst (span is_space t)) ++ b)
                     (snd (span is_space t)) [])
  else None.
Proof.
  unfold match_here, sentence_re. cbn [run before rest caps].
  destruct b as [|y b]; simpl ends_with_terminator; auto.
  rewrite terminator_mem. destruct (is_terminator y); auto.
  rewrite rep_greedy_exact by discriminate.
  rewrite (span_ext (cset_mem false CSpace) is_space) by reflexivity.
  reflexivity.
Qed.

Lemma split_scan_skip (ic : bool) (r : regex) (n : nat) (b tl cur : str)
      (x : char) :
  split_scan ic r (S n) b (x :: tl) cur = split_scan ic r n (x :: b) tl cur.
Proof. reflexivity. Qed.

Lemma split_scan_here (ic : bool) (r : regex) (b tl cur : str) (x : char) :
  split_scan ic r 0 b (x :: tl) cur =
  match match_here ic r false b (x :: tl) with
  | None => split_scan ic r 0 (x :: b) tl (x :: cur)
  | Some s' =>
      match (length (x :: tl) - length (rest s'))%nat with
      | S _ as len => rev cur :: split_scan ic r (pred len) (x :: b) tl []
      | O =>
          rev cur ::
          match match_here ic r true b (x :: tl) with
          | Some s'' =>
              [] :: split_scan ic r
                      (pred (length (x :: tl) - length (rest s'')))
                      (x :: b) tl []
          | None => split_scan ic r 0 (x :: b) tl [x]
          end
      end
  end.
Proof. reflexivity. Qed.

Lemma split_scan_end (ic : bool) (r : regex) (b cur : str) :
  match_here ic r false b [] = None ->
  split_scan ic r 0 b [] cur = [rev cur].
Proof. intro H. simpl. rewrite H. reflexivity. Qed.

(** The loop of [re.split] on the sentence pattern is the cutting into
    sentences: from a place outside a boundary, and from a place inside a
    boundary with [n] characters of whitespace left. *)
Lemma split_scan_sentences :
  forall t,
    (forall b cur,
        ends_with_terminator b = ends_with_terminator cur ->
        split_scan false sentence_re 0 b t cur = sentences false cur t) /\
    (forall n b,
        length (fst (span is_space t)) = n ->
        split_scan false sentence_re n b t [] = sentences true [] t).
Proof.
  assert (Hend : forall b, match_here false sentence_re false b [] = None).
  { intro b. rewrite match_here_sentence.
    change (1 <=? length (fst (span is_space [])))%nat with false.
    rewrite andb_false_r. reflexivity. }
  induction t as [|x tl [IHN IHG]]; split.
  - intros b cur _. rewrite split_scan_end by apply Hend. reflexivity.
  - intros n b Hn. cbn in Hn. subst n.
    rewrite split_scan_end by apply Hend. reflexivity.
  - intros b cur Hinv. rewrite split_scan_here, match_here_sentence.
    cbn [sentences orb]. rewrite <- Hinv.
    destruct (is_space x) eqn:Hx.
    + destruct (span_cons_true is_space x tl Hx) as [Hf Hs].
      rewrite Hf, Hs.
      destruct (ends_with_terminator b) eqn:Hb; cbn [andb].
      * change (1 <=? length (x :: fst (span is_space tl)))%nat with true.
        cbn [rest length].
        pose proof (span_length is_space tl) as Hl.
        replace (S (length tl) - length (snd (span is_space tl)))%nat
          with (S (length (fst (span is_space tl)))) by lia.
        cbn [pred]. f_equal. apply IHG. reflexivity.
      * apply IHN. reflexivity.
    + rewrite (span_cons_false is_space x tl Hx).
      cbn [fst length Nat.leb andb]. rewrite andb_false_r.
      apply IHN. reflexivity.
  - intros n b Hn. cbn [sentences orb].
    destruct (is_space x) eqn:Hx.
    + destruct (span_cons_true is_space x tl Hx) as [Hf _].
      rewrite Hf in Hn. cbn [length] in Hn. subst n.
      rewrite split_scan_skip. cbn [andb]. apply IHG. reflexivity.
    + rewrite (span_cons_false is_space x tl Hx) in Hn. cbn in Hn.
      subst n. cbn [andb].
      rewrite split_scan_here, match_here_sentence.
      rewrite (span_cons_false is_space x tl Hx).
      cbn [fst length Nat.leb andb]. rewrite andb_false_r.
      apply IHN. reflexivity.
Qed.

Lemma split_sentences (t : str) :
  Re.split false sentence_re t = sentences false [] t.
Proof. apply split_scan_sentences. reflexivity. Qed.

End SplitFacts.

(** ** Inverting what a pattern matches *)

Ltac inv_matches :=
  repeat match goal with
         | H : matches _ Eps _ _ _ _ |- _ => inversion H; subst; clear H
         | H : matches _ (Chr _) _ _ _ _ |- _ => inversion H; subst; clear H
         | H : matches _ (Cat _ _) _ _ _ _ |- _ => inversion H; subst; clear H
         | H : matches _ (Alt _ _) _ _ _ _ |- _ => inversion H; subst; clear H
         | H : matches _ (Opt _) _ _ _ _ |- _ => inversion H; subst; clear H
         | H : matches _ (Rep _ _ _ _) _ _ _ _ |- _ =>
             inversion H; subst; clear H
         | H : matches _ (Group _ _) _ _ _ _ |- _ =>
             inversion H; subst; clear H
         end.

(** ** Dates *)

Section DateFacts.

Lemma forallb_ext' (f g : char -> bool) (w : str) :
  (forall x, f x = g x) -> forallb f w = forallb g w.
Proof. intro H. induction w; simpl; congruence. Qed.

Lemma date_sep_mem (ic : bool) (x : char) :
  cset_mem ic date_sep x = is_date_sep x.
Proof.
  unfold is_date_sep, date_sep.
  change (chr_of "/") with (CChar 47). change (chr_of "-") with (CChar 45).
  rewrite cset_mem_union, !cset_mem_low by reflexivity. reflexivity.
Qed.

Lemma digit_run (ic : bool) (w : str) :
  forallb (cset_mem ic CDigit) w = forallb is_digit w.
Proof. apply forallb_ext'. reflexivity. Qed.

(** The generic date pattern matches the date-shaped tokens and nothing
    else. *)
Lemma generic_date_matches (ic : bool) (b w : str) (c c' : list (nat * str)) :
  matches ic generic_date_re b w c c' -> date_shaped w.
Proof.
  unfold generic_date_re. intro H. inv_matches.
  repeat match goal with
         | H : cset_mem _ date_sep _ = true |- _ => rewrite date_sep_mem in H
         | H : forallb (cset_mem _ CDigit) _ = true |- _ =>
             rewrite digit_run in H
         end.
  unfold date_shaped, digits.
  do 5 eexists. split; [reflexivity|]. repeat split; auto.
Qed.

Lemma date_shaped_matches (ic : bool) (b w : str) (c : list (nat * str)) :
  date_shaped w -> matches ic generic_date_re b w c c.
Proof.
  intros (d & s1 & m & s2 & y & -> & [Hd Hd'] & Hs1 & [Hm Hm'] & Hs2 & [Hy Hy']).
  unfold generic_date_re.
  repeat first
    [ apply M_Cat with (c1 := c)
    | apply M_Rep; [lia | lia | rewrite digit_run; assumption]
    | apply M_Chr; rewrite date_sep_mem; assumption ].
Qed.

Lemma no_date_generic (text : str) :
  ~ contains_date text -> search false generic_date_re text = None.
Proof.
  intro Hno. destruct (search false generic_date_re text) as [m|] eqn:Hs; auto.
  exfalso. apply Hno. apply search_sound in Hs.
  destruct Hs as (pre & post & Ht & _ & Hm & _).
  exists pre, (m_text m), post. split; auto.
  eapply generic_date_matches; eauto.
Qed.

Lemma no_date_targeted (text : str) :
  ~ contains_date text -> search true date_re text = None.
Proof.
  intro Hno. destruct (search true date_re text) as [m|] eqn:Hs; auto.
  exfalso. apply Hno. apply search_sound in Hs.
  destruct Hs as (pre & post & Ht & _ & Hm & _).
  unfold date_re in Hm. inv_matches.
  match goal with
  | H : matches _ generic_date_re _ ?w _ _, E : ?w1 ++ ?w2 ++ ?w = _ |- _ =>
      exists (pre ++ w1 ++ w2), w, post; split;
      [ rewrite <- E, <- !app_assoc; reflexivity
      | eapply generic_date_matches; eauto ]
  end.
Qed.

(** The generic search decides whether a text holds a date-shaped token. *)
Lemma contains_date_found (text : str) :
  contains_date text -> search false generic_date_re text <> None.
Proof.
  intros (pre & tok & post & -> & Hd).
  apply search_complete with (c := []) (c' := []).
  apply date_shaped_matches. exact Hd.
Qed.

End DateFacts.

(** ** Deposit amounts *)

Section MoneyFacts.

Lemma numeric_mem (ic : bool) (x : char) :
  cset_mem ic numeric_chars x = is_numeric x.
Proof.
  unfold is_numeric, numeric_chars.
  change (chr_of ",") with (CChar 44). change (chr_of ".") with (CChar 46).
  rewrite !cset_mem_union, !cset_mem_low by reflexivity.
  change (cset_mem ic CDigit x) with (is_digit x).
  apply orb_assoc.
Qed.

Lemma span_app (f : char -> bool) (t : str) :
  t = fst (span f t) ++ snd (span f t).
Proof.
  induction t as [|x tl IH]; simpl; auto.
  destruct (f x); simpl; auto.
  destruct (span f tl); simpl in *. congruence.
Qed.

Lemma span_all (f : char -> bool) (t : str) :
  forallb f (fst (span f t)) = true.
Proof.
  induction t as [|x tl IH]; simpl; auto.
  destruct (f x) eqn:Hx; simpl; auto.
  destruct (span f tl); simpl in *. rewrite Hx; auto.
Qed.

Lemma span_stop (f : char -> bool) (t : str) :
  match snd (span f t) with x :: _ => f x = false | [] => True end.
Proof.
  induction t as [|x tl IH]; simpl; auto.
  destruct (f x) eqn:Hx; simpl; auto.
  destruct (span f tl); simpl in *. exact IH.
Qed.

Lemma marker_shape :
  currency_marker =
  Alt (Chr (CChar 8377))
      (Alt (Cat (Cat (Chr (CChar 82)) (Chr (CChar 115)))
                (Opt (Chr (CChar 46))))
           (Cat (Chr (CChar 73)) (Cat (Chr (CChar 78)) (Chr (CChar 82))))).
Proof. reflexivity. Qed.

(** The marker pattern matches the four markers and nothing else, and sets
    no group. *)
Lemma matches_marker (b w : str) (c c' : list (nat * str)) :
  matches false currency_marker b w c c' -> is_marker w /\ c' = c.
Proof.
  rewrite marker_shape. intro H. inv_matches;
    repeat match goal with
           | H : cset_mem false (CChar ?p) ?x = true |- _ =>
               change ((p =? x) = true) in H; apply N.eqb_eq in H; subst x
           end;
    (split; [cbv; auto 6 | reflexivity]).
Qed.

Lemma marker_matches (b m : str) (c : list (nat * str)) :
  is_marker m -> matches false currency_marker b m c c.
Proof.
  rewrite marker_shape. intros [->|[->|[->| ->]]].
  - apply M_AltL, M_Chr. reflexivity.
  - change (py "Rs") with (([82] ++ [115]) ++ (@nil char)).
    apply M_AltR, M_AltL.
    eapply M_Cat; [eapply M_Cat; apply M_Chr; reflexivity | apply M_OptNone].
  - change (py "Rs.") with (([82] ++ [115]) ++ [46]).
    apply M_AltR, M_AltL.
    eapply M_Cat; [eapply M_Cat; apply M_Chr; reflexivity|].
    apply M_OptSome, M_Chr. reflexivity.
  - change (py "INR") with ([73] ++ [78] ++ [82]).
    apply M_AltR, M_AltR.
    eapply M_Cat; [apply M_Chr; reflexivity|].
    eapply M_Cat; apply M_Chr; reflexivity.
Qed.

Lemma numeric_run (ic : bool) (w : str) :
  forallb (cset_mem ic numeric_chars) w = forallb is_numeric w.
Proof. apply forallb_ext'. apply numeric_mem. Qed.

Lemma space_run (ic : bool) (w : str) :
  forallb (cset_mem ic CSpace) w = forallb is_space w.
Proof. apply forallb_ext'. reflexivity. Qed.

(** Every occurrence of a marker and a number is matched by the general
    pattern. *)
Lemma occurrence_matches (text pre m ws num post : str) :
  money_occurrence text pre m ws num post ->
  matches false general_re (rev pre) (m ++ ws ++ num) []
          (set_cap 2 num (set_cap 1 m [])).
Proof.
  intros (_ & Hm & Hws & Hne & Hnum). unfold general_re.
  apply M_Cat with (c1 := set_cap 1 m []).
  - apply M_Group, marker_matches, Hm.
  - apply M_Cat with (c1 := set_cap 1 m []).
    + apply M_Rep; [lia | exact I | rewrite space_run; exact Hws].
    + apply M_Group, M_Rep; [|exact I | rewrite numeric_run; exact Hnum].
      destruct num; [congruence | simpl; lia].
Qed.

(** One attempt of the general pattern: a marker, whitespace, and the whole
    run of numeric characters that follows; the groups are the marker and
    the run. *)
Lemma general_here (b t : str) (s' : state) :
  match_here false general_re false b t = Some s' ->
  exists m ws num post,
    t = m ++ ws ++ num ++ post /\
    is_marker m /\ forallb is_space ws = true /\
    num <> [] /\ forallb is_numeric num = true /\
    match post with x :: _ => is_numeric x = false | [] => True end /\
    rest s' = post /\
    caps s' = set_cap 2 num (set_cap 1 m []).
Proof.
  unfold match_here, general_re. cbn [run before rest caps andb].
  intro H. apply run_sound in H.
  destruct H as (m & t1 & c1 & Ht & Hm & H). cbn [before rest caps] in *.
  apply matches_marker in Hm. destruct Hm as [Hm ->].
  apply rep_sound in H.
  destruct H as (ws & t2 & -> & _ & _ & Hws & H).
  cbn [before rest caps] in H.
  rewrite rep_greedy_exact in H by discriminate.
  rewrite space_run in Hws.
  rewrite (span_ext (cset_mem false numeric_chars) is_numeric) in H
    by apply numeric_mem.
  pose proof (span_app is_numeric t2) as Happ.
  pose proof (span_all is_numeric t2) as Hall.
  pose proof (span_stop is_numeric t2) as Hstop.
  destruct (span is_numeric t2) as [num post]. cbn [fst snd] in *.
  destruct (1 <=? length num)%nat eqn:Hlen; try discriminate.
  inversion H; subst s'; clear H. cbn [rest caps].
  subst t2. rewrite !consumed_app.
  exists m, ws, num, post. repeat split; auto.
  - intros ->. discriminate.
  - rewrite Ht, consumed_app. reflexivity.
Qed.

Lemma lit_prefix_ci :
  forall p b w c c',
    matches true (lit p) b w c c' ->
    forall post, prefix_ci p (w ++ post) = true.
Proof.
  induction p as [|x p IH]; intros b w c c' H post.
  - reflexivity.
  - destruct p as [|y p'].
    + change (lit [x]) with (Chr (CChar x)) in H. inv_matches.
      simpl. rewrite andb_true_r. assumption.
    + change (lit (x :: y :: p')) with (Cat (Chr (CChar x)) (lit (y :: p')))
        in H.
      inversion H; subst; clear H. inv_matches.
      change (([x0] ++ w2) ++ post) with (x0 :: (w2 ++ post)).
      cbn [prefix_ci]. apply andb_true_iff. split; [assumption|].
      eapply IH; eauto.
Qed.

Lemma contains_ci_app (p pre t : str) :
  prefix_ci p t = true -> contains_ci p (pre ++ t) = true.
Proof.
  intro H. induction pre as [|x pre IH]; simpl.
  - destruct t; simpl; rewrite H; reflexivity.
  - rewrite IH. apply orb_true_r.
Qed.

Lemma indicator_found (pre w post b : str) (c c' : list (nat * str)) :
  matches true deposit_indicator b w c c' ->
  has_deposit_indicator (pre ++ w ++ post) = true.
Proof.
  unfold deposit_indicator, has_deposit_indicator. intro H.
  inversion H as [| | |? ? ? ? ? ? H'|? ? ? ? ? ? H'| | | | |]; subst.
  - pose proof (lit_prefix_ci (py "EMD") H' post) as Hp.
    apply (contains_ci_app _ pre) in Hp. rewrite Hp. reflexivity.
  - pose proof (lit_prefix_ci (py "Earnest Money Deposit") H' post) as Hp.
    apply (contains_ci_app _ pre) in Hp. rewrite Hp. apply orb_true_r.
Qed.

(** Without a deposit-indicator phrase the targeted search finds nothing. *)
Lemma no_indicator_emd (text : str) :
  has_deposit_indicator text = false -> search true emd_re text = None.
Proof.
  intro Hno. destruct (search true emd_re text) as [m|] eqn:Hs; auto.
  exfalso. apply search_sound in Hs.
  destruct Hs as (pre & post & Ht & _ & Hm & _).
  unfold emd_re in Hm. inversion Hm; subst; clear Hm.
  match goal with
  | H : matches true deposit_indicator _ ?w1 _ _, E : ?w1 ++ ?w2 = _ |- _ =>
      rewrite <- E, <- app_assoc in Hno;
      rewrite (indicator_found pre (w2 ++ post) H) in Hno
  end.
  discriminate.
Qed.

End MoneyFacts.

(** ** The matcher on concrete texts *)

Example split_with_empty_matches :
  Re.split false (Rep (CChar 120) 0 None true) (py "axb") =
  [[]; py "a"; []; py "b"; []].
Proof. vm_compute. reflexivity. Qed.

Example summary_of_five_sentences :
  simple_summary (py "  Hello there.  How are you? Fine!   Thanks. Bye ") =
  py "Hello there. How are you? Fine!".
Proof. vm_compute. reflexivity. Qed.

Example sentences_of_text :
  sentences false [] (py "v1.2 is out.  Is it?No!  Yes") =
  [py "v1.2 is out."; py "Is it?No!"; py "Yes"].
Proof. vm_compute. reflexivity. Qed.

Example marker_gives_up_its_point :
  f_emd (extract_fields (py "Rs. x")) = py "Rs .".
Proof. vm_compute. reflexivity. Qed.

Example rupee_sign :
  f_emd (extract_fields (rupee :: py "500 only")) = rupee :: py " 500".
Proof. vm_compute. reflexivity. Qed.

Example indicator_on_another_line :
  f_emd (extract_fields (py "earnest money deposit" ++ newline ++
                         py "of Rs 7. INR 9")) = py "Rs 7.".
Proof. vm_compute. reflexivity. Qed.

Example targeted_date_first :
  f_due_date (extract_fields
                (py "On 12/05/2024 the closing date moved to 1-2-25.")) =
  py "1-2-25".
Proof. vm_compute. reflexivity. Qed.

Example bounded_digits :
  extract_fields (py "Fee Rs.1,000.50/- by 123/4/20245") =
  mkFields (py "Rs. 1,000.50") (py "23/4/2024")
           (py "Fee Rs.1,000.50/- by 123/4/20245").
Proof. vm_compute. reflexivity. Qed.

Example ignore_case_marker :
  extract_fields (py "EMD is rs.  12 and Submission 3/4/56789") =
  mkFields (py "rs. 12") (py "3/4/5678")
           (py "EMD is rs.  12 and Submission 3/4/56789").
Proof. vm_compute. reflexivity. Qed.

Example extension_of_name :
  extension Sample.E (py "Bill.of.Quantities.XLSX") = py "xlsx" /\
  extension Sample.E (py "README") = py "readme".
Proof. vm_compute. split; reflexivity. Qed.

(** ** The record builder *)

Section BuilderFacts.
Variable E : env.

Lemma summary_of_text (txt : str) :
  (if truthy txt then simple_summary txt else []) = simple_summary txt.
Proof. destruct txt; reflexivity. Qed.

Lemma fields_of_text (txt : str) :
  (if truthy txt then extract_fields txt else mkFields [] [] []) =
  extract_fields txt.
Proof. destruct txt; reflexivity. Qed.

(** The tender that [process_file] builds from what was ingested. *)
Lemma assemble_tender (x : str * str * str * (str * rows)) (w : world) :
  fst (assemble E x w) =
  let txt := fallback_text (fst (snd x)) (snd (snd x)) in
  mkTender (fst (fst (fst x))) (snd (fst (fst x))) (snd (fst x)) txt
           (snd (snd x)) (simple_summary txt)
           (f_emd (extract_fields txt)) (f_due_date (extract_fields txt))
           (f_eligibility (extract_fields txt))
           (now_isoformat E (ticks w)).
Proof.
  destruct x as [[[fid name] sp] [t0 r]].
  unfold assemble, bind, now, tick, ret, put, save_tenders.
  cbn [fst snd]. rewrite summary_of_text, fields_of_text. reflexivity.
Qed.

(** The store after [process_file]: only the tender is added and saved. *)
Lemma assemble_world (x : str * str * str * (str * rows)) (w : world) :
  let t := fst (assemble E x w) in
  let w' := snd (assemble E x w) in
  calls w' = calls w /\
  tenders w' = dict_set (tenders w) (id_ t) t /\
  data_file w' = Some (json_of_tenders (tenders w')).
Proof.
  destruct x as [[[fid name] sp] [t0 r]].
  unfold assemble, bind, now, tick, ret, put, save_tenders.
  cbn [fst snd calls tenders data_file id_]. auto.
Qed.


Lemma ingest_tenders (up : upload) (w : world) :
  tenders (snd (ingest E up w)) = tenders w.
Proof.
  unfold ingest, new_uuid, tick, save_upload, ret, bind.
  cbn beta iota. unfold extract_by_ext.
  repeat match goal with
         | |- context [if ?c then _ else _] => destruct c
         end; reflexivity.
Qed.

(** [process_file] keeps the keys of [tenders] distinct. *)
Lemma process_file_wf (up : upload) (w : world) :
  dict_wf (tenders w) -> dict_wf (tenders (snd (process_file E up w))).
Proof.
  intro Hwf. unfold process_file, bind.
  pose proof (ingest_tenders up w) as Hin.
  destruct (ingest E up w) as [x w1]. cbn [snd] in Hin.
  destruct (assemble_world x w1) as (_ & Htd & _).
  rewrite Htd. apply dict_set_wf. rewrite Hin. exact Hwf.
Qed.

End BuilderFacts.

(** ** The properties of the specification *)

(** C1, as the program behaves.  On the text of scenario 1 the deposit
    amount is ["Rs. 50,000."]: the marker ["Rs."], a space, and the numeric
    token ["50,000."], which is the longest run of digits, commas and points
    and so takes in the full stop that ends the sentence.  The due date is
    ["12/05/2024"]. *)
Theorem C1_scenario1_fields :
  f_emd (extract_fields Sample.scenario1) = py "Rs. 50,000." /\
  f_due_date (extract_fields Sample.scenario1) = py "12/05/2024" /\
  exists m,
    search true emd_re Sample.scenario1 = Some m /\
    group m 1 = py "Rs." /\ group m 2 = py "50,000.".
Proof.
  split; [vm_compute; reflexivity|].
  split; [vm_compute; reflexivity|].
  eexists. split; [vm_compute; reflexivity|].
  split; vm_compute; reflexivity.
Qed.

(** C1 as stated fails: the deposit amount of scenario 1 is not
    ["Rs. 50,000"]. *)
Lemma C1_counterexample :
  ~ (f_emd (extract_fields Sample.scenario1) = py "Rs. 50,000" /\
     f_due_date (extract_fields Sample.scenario1) = py "12/05/2024").
Proof. intros [H _]. vm_compute in H. discriminate. Qed.

(** C2.  The eligibility excerpt is the text itself when the text has at most
    200 characters, and its first 200 characters followed by ["..."] when it
    has more; it never has more than 203 characters. *)
Theorem C2_eligibility_excerpt (text : str) :
  ((length text <= 200)%nat ->
   f_eligibility (extract_fields text) = text) /\
  ((200 < length text)%nat ->
   f_eligibility (extract_fields text) = firstn 200 text ++ py "...") /\
  (length (f_eligibility (extract_fields text)) <= 203)%nat.
Proof.
  unfold extract_fields. cbn [f_eligibility].
  destruct (Nat.ltb_spec 200 (length text)) as [Hlt|Hle].
  - repeat split; try (intros; lia); auto.
    rewrite length_app, length_firstn.
    change (length (py "...")) with 3%nat. lia.
  - repeat split; try (intros; lia); auto.
Qed.

Lemma C2_witness :
  f_eligibility (extract_fields (repeat 120 201)) =
  firstn 200 (repeat 120 201) ++ py "...".
Proof.
  apply (proj1 (proj2 (C2_eligibility_excerpt (repeat 120 201)))).
  rewrite repeat_length. lia.
Defined.

(** C3.  When the text holds no deposit-indicator phrase but holds a currency
    marker followed by a numeric token, the deposit amount is taken from the
    first such occurrence: its marker, a space, and its numeric token, taken
    whole.  The text ["Total cost INR 75000"] gives ["INR 75000"]. *)
Theorem C3_deposit_fallback :
  (forall text,
      has_deposit_indicator text = false ->
      (exists pre m ws num post, money_occurrence text pre m ws num post) ->
      exists pre m ws num post,
        money_occurrence text pre m ws num post /\
        (forall pre' m' ws' num' post',
            money_occurrence text pre' m' ws' num' post' ->
            (length pre <= length pre')%nat) /\
        match post with x :: _ => is_numeric x = false | [] => True end /\
        f_emd (extract_fields text) = m ++ py " " ++ num) /\
  has_deposit_indicator (py "Total cost INR 75000") = false /\
  f_emd (extract_fields (py "Total cost INR 75000")) = py "INR 75000".
Proof.
  split; [|split; vm_compute; reflexivity].
  intros text Hno (pre0 & m0 & ws0 & num0 & post0 & Hocc).
  unfold extract_fields. cbn [f_emd].
  rewrite (no_indicator_emd _ Hno).
  destruct (search false general_re text) as [gm|] eqn:Hs.
  - apply search_here in Hs.
    destruct Hs as (pre & t1 & s' & Ht & Hh & Hgm & Hleft).
    apply general_here in Hh.
    destruct Hh as (m & ws & num & post & Ht1 & Hm & Hws & Hne & Hnum & Hstop
                    & _ & Hcaps).
    exists pre, m, ws, num, post. repeat split; auto.
    + rewrite Ht, Ht1. reflexivity.
    + intros pre' m' ws' num' post' Hocc'.
      apply (Hleft pre' (m' ++ ws' ++ num') post' []
                   (set_cap 2 num' (set_cap 1 m' []))).
      * destruct Hocc' as [-> _]. rewrite <- !app_assoc. reflexivity.
      * eapply occurrence_matches; eauto.
    + rewrite Hgm. unfold group. cbn [m_caps]. rewrite Hcaps. reflexivity.
  - exfalso. pose proof (occurrence_matches Hocc) as Hm.
    apply search_complete with (post := post0) in Hm.
    destruct Hocc as [-> _]. rewrite <- !app_assoc in Hm. congruence.
Qed.

Lemma C3_witness :
  exists pre m ws num post,
    money_occurrence (py "Total cost INR 75000") pre m ws num post /\
    (forall pre' m' ws' num' post',
        money_occurrence (py "Total cost INR 75000") pre' m' ws' num' post' ->
        (length pre <= length pre')%nat) /\
    match post with x :: _ => is_numeric x = false | [] => True end /\
    f_emd (extract_fields (py "Total cost INR 75000")) = m ++ py " " ++ num.
Proof.
  apply (proj1 C3_deposit_fallback).
  - vm_compute. reflexivity.
  - exists (py "Total cost "), (py "INR"), (py " "), (py "75000"), [].
    unfold money_occurrence, is_marker.
    repeat split; try (vm_compute; reflexivity); auto.
    discriminate.
Defined.

(** C4.  When the text holds no date-shaped token, the due date is the empty
    string; the extractor still returns its record, nothing is raised. *)
Theorem C4_no_date_empty_due_date (text : str) :
  ~ contains_date text -> f_due_date (extract_fields text) = [].
Proof.
  intro Hno. unfold extract_fields. cbn [f_due_date].
  rewrite (no_date_targeted Hno), (no_date_generic Hno). reflexivity.
Qed.

Lemma C4_witness :
  f_due_date (extract_fields (py "Bids close at noon. Rs 5/- per form.")) = [].
Proof.
  apply C4_no_date_empty_due_date.
  intro H. apply contains_date_found in H. apply H.
  vm_compute. reflexivity.
Defined.



(** C6.  When the extraction gave no text and some rows, the text of the
    record, and the text from which its summary and fields are computed, is
    the flattening of the first five rows: the cells of a row joined by
    [", "], the rows joined by line feeds.  Three rows of two cells give three
    lines. *)
Theorem C6_fallback_flattening (E : env) (up : upload) (w : world) :
  let x := fst (ingest E up w) in
  let r := snd (snd x) in
  fst (snd x) = [] -> r <> [] ->
  let t := fst (process_file E up w) in
  text t = join newline (map (join (py ", ")) (firstn 5 r)) /\
  table_rows t = r /\
  summary t = simple_summary (text t) /\
  emd t = f_emd (extract_fields (text t)) /\
  due_date t = f_due_date (extract_fields (text t)) /\
  eligibility t = f_eligibility (extract_fields (text t)) /\
  forall a b c d e f,
    flatten_rows [[a; b]; [c; d]; [e; f]] =
    (a ++ py ", " ++ b) ++ newline ++ (c ++ py ", " ++ d) ++ newline ++
    (e ++ py ", " ++ f).
Proof.
  unfold process_file, bind.
  destruct (ingest E up w) as [[[[fid name] sp] [t0 r]] w1].
  cbn [fst snd]. intros -> Hr. rewrite assemble_tender.
  destruct r as [|row r]; [congruence|].
  cbn [fst snd fallback_text text table_rows summary emd due_date eligibility].
  repeat split; reflexivity.
Qed.

Lemma C6_witness :
  text (fst (process_file Sample.E Sample.xlsx_upload Sample.w0)) =
  py "a, b" ++ newline ++ py "c, d" ++ newline ++ py "e, f".
Proof.
  refine (proj1 (C6_fallback_flattening Sample.E Sample.xlsx_upload Sample.w0
                                        _ _)).
  - vm_compute. reflexivity.
  - vm_compute. discriminate.
Defined.



(** C8.  After [put] of a tender, [get] of its id returns it, the data file
    holds the document of the whole dictionary, and loading that file gives
    the same dictionary back; a tender is read back from its document with
    every declared field as it was. *)
Theorem C8_store_round_trip (t : tender) (w : world) :
  dict_wf (tenders w) ->
  let w' := snd (put (id_ t) t w) in
  get (id_ t) w' = Some t /\
  data_file w' = Some (json_of_tenders (tenders w')) /\
  load_tenders (data_file w') = Some (tenders w') /\
  tender_of_json (json_of_tender t) = Some t.
Proof.
  intro Hwf. unfold put, bind, save_tenders, get.
  cbn [fst snd tenders data_file].
  repeat split.
  - apply dict_get_set_same.
  - cbn [load_tenders]. apply tenders_of_json_of_tenders.
    apply dict_set_wf, Hwf.
  - apply tender_of_json_of_tender.
Qed.

Lemma C8_witness :
  get (id_ Sample.some_tender)
      (snd (put (id_ Sample.some_tender) Sample.some_tender Sample.w0)) =
  Some Sample.some_tender /\
  load_tenders
    (data_file (snd (put (id_ Sample.some_tender) Sample.some_tender Sample.w0))) =
  Some (tenders (snd (put (id_ Sample.some_tender) Sample.some_tender Sample.w0))).
Proof.
  assert (H : dict_wf (tenders Sample.w0)) by constructor.
  pose proof (C8_store_round_trip Sample.some_tender Sample.w0 H) as G.
  split; [exact (proj1 G) | exact (proj1 (proj2 (proj2 G)))].
Defined.

(** C9.  The listing holds the stored tenders, each once, in descending order
    of [uploaded_at]; tenders with the same [uploaded_at] keep the order of
    the dictionary, which is the order of insertion: a tender put under a new
    id comes last. *)
Theorem C9_listing_order (w : world) :
  Permutation (tender_list w) (dict_values (tenders w)) /\
  StronglySorted (desc uploaded_at) (tender_list w) /\
  (forall k,
      filter (has_key uploaded_at k) (tender_list w) =
      filter (has_key uploaded_at k) (dict_values (tenders w))) /\
  (forall fid t,
      ~ In fid (dict_keys (tenders w)) ->
      dict_values (tenders (snd (put fid t w))) =
      dict_values (tenders w) ++ [t]).
Proof.
  unfold tender_list.
  destruct (sorted_reverse_spec uploaded_at (dict_values (tenders w)))
    as (Hp & Hs & Hf).
  repeat split; auto.
  intros fid t Hfresh. unfold put, bind, save_tenders.
  cbn [fst snd tenders]. rewrite dict_set_fresh by exact Hfresh.
  unfold dict_values. rewrite map_app. reflexivity.
Qed.

Lemma C9_witness :
  dict_values (tenders (snd (put (py "k1") Sample.some_tender Sample.w0))) =
  dict_values (tenders Sample.w0) ++ [Sample.some_tender].
Proof.
  apply (proj2 (proj2 (proj2 (C9_listing_order Sample.w0)))).
  intros [].
Defined.

(** C10.  The fallback search is case-sensitive where the targeted search is
    not: a text without deposit-indicator phrase whose only marker is written
    [inr] gets the empty deposit amount, and the same text behind ["EMD "]
    gets ["inr 75000"]. *)
Theorem C10_fallback_case_sensitive :
  exists text,
    text = py "total cost inr 75000" /\
    has_deposit_indicator text = false /\
    contains_ci (py "INR") text = true /\
    search false general_re text = None /\
    f_emd (extract_fields text) = [] /\
    f_emd (extract_fields (py "EMD " ++ text)) = py "inr 75000".
Proof.
  eexists. split; [reflexivity|].
  repeat split; vm_compute; reflexivity.
Qed.

(** ** Further properties of the field extractor *)

Section FieldFacts.

Lemma date_shaped_length (tok : str) : date_shaped tok -> (length tok <= 10)%nat.
Proof.
  intros (d & s1 & m & s2 & y & -> & [Hd _] & _ & [Hm _] & _ & [Hy _]).
  rewrite !length_app. simpl. lia.
Qed.

Lemma eq_ci_marker (m : str) : is_marker m -> is_marker_ci m = true.
Proof. intros [->|[->|[->| ->]]]; vm_compute; reflexivity. Qed.

(** Under [re.IGNORECASE] the marker pattern matches the markers in any
    case, and sets no group. *)
Lemma matches_marker_ci (b w : str) (c c' : list (nat * str)) :
  matches true currency_marker b w c c' -> is_marker_ci w = true /\ c' = c.
Proof.
  rewrite marker_shape. intro H. inv_matches;
    repeat match goal with
           | H : cset_mem true (CChar ?p) ?x = true |- _ =>
               change (ci_eq p x = true) in H
           end;
    (split; [|reflexivity]); unfold is_marker_ci, rupee;
    change (py "Rs") with [82; 115]; change (py "Rs.") with [82; 115; 46];
    change (py "INR") with [73; 78; 82];
    cbn [eq_ci app];
    repeat match goal with
           | H : ci_eq _ _ = true |- _ => rewrite H; clear H
           end;
    cbn [andb orb]; rewrite ?orb_true_r; reflexivity.
Qed.

(** What the general pattern matches, under either flag: a marker,
    whitespace, a numeric token; the groups are the marker and the token. *)
Lemma matches_general (ic : bool) (b w : str) (c c' : list (nat * str)) :
  matches ic general_re b w c c' ->
  exists m ws num,
    w = m ++ ws ++ num /\
    is_marker_ci m = true /\ forallb is_space ws = true /\
    num <> [] /\ forallb is_numeric num = true /\
    c' = set_cap 2 num (set_cap 1 m c).
Proof.
  unfold general_re. intro H.
  inversion H as [| |? ? ? m w2 ? c1 ? Hg1 H2| | | | | | |]; subst; clear H.
  inversion Hg1 as [| | | | | | | |? ? ? ? ? ? Hm|]; subst; clear Hg1.
  assert (Hmk : is_marker_ci m = true /\ c'0 = c).
  { destruct ic.
    - apply matches_marker_ci in Hm. exact Hm.
    - apply matches_marker in Hm. destruct Hm as [Hm ->].
      split; [apply eq_ci_marker, Hm | reflexivity]. }
  destruct Hmk as [Hmk ->].
  inv_matches.
  match goal with
  | Hs : forallb (cset_mem ic CSpace) ?ws = true,
    Hn : forallb (cset_mem ic numeric_chars) ?num = true,
    Hl : (1 <= length ?num)%nat |- _ =>
      exists m, ws, num; rewrite space_run in Hs; rewrite numeric_run in Hn;
      repeat split; auto;
      intros ->; simpl in Hl; lia
  end.
Qed.

End FieldFacts.

(** ** Further properties *)

(** X1.  The due date is either empty or a date-shaped token that stands in
    the text; it never has more than ten characters. *)
Theorem X1_due_date_from_text (text : str) :
  f_due_date (extract_fields text) = [] \/
  ((exists pre post, text = pre ++ f_due_date (extract_fields text) ++ post) /\
   date_shaped (f_due_date (extract_fields text)) /\
   (length (f_due_date (extract_fields text)) <= 10)%nat).
Proof.
  unfold extract_fields. cbn [f_due_date].
  destruct (search true date_re text) as [m|] eqn:Ht.
  - right. apply search_sound in Ht.
    destruct Ht as (pre & post & Htext & _ & Hm & _).
    subst text. unfold date_re in Hm. inv_matches.
    match goal with
    | H : matches _ generic_date_re _ ?w _ _, E : ?w1 ++ ?w2 ++ ?w = _,
      C : set_cap 1 ?w _ = m_caps m |- _ =>
        assert (Hg : group m 1 = w)
          by (unfold group; rewrite <- C; reflexivity);
        rewrite Hg; apply generic_date_matches in H;
        split; [exists (pre ++ w1 ++ w2), post;
                try rewrite <- E; rewrite <- !app_assoc; reflexivity|];
        split; [exact H | apply date_shaped_length, H]
    end.
  - destruct (search false generic_date_re text) as [m|] eqn:Hg; [|left; auto].
    right. apply search_sound in Hg.
    destruct Hg as (pre & post & Htext & _ & Hm & _).
    apply generic_date_matches in Hm. cbn [group].
    split; [exists pre, post; exact Htext|].
    split; [exact Hm | apply date_shaped_length, Hm].
Qed.

(** X2.  A text that holds a currency marker, in its written case, followed
    by a numeric token never gets an empty deposit amount. *)
Theorem X2_deposit_not_missed (text : str) :
  (exists pre m ws num post, money_occurrence text pre m ws num post) ->
  f_emd (extract_fields text) <> [].
Proof.
  intros (pre & m & ws & num & post & Hocc).
  unfold extract_fields. cbn [f_emd].
  destruct (search true emd_re text) as [em|].
  - destruct (group em 1); discriminate.
  - destruct (search false general_re text) as [gm|] eqn:Hs.
    + destruct (group gm 1); discriminate.
    + exfalso. pose proof (occurrence_matches Hocc) as Hm.
      apply search_complete with (post := post) in Hm.
      destruct Hocc as [-> _]. rewrite <- !app_assoc in Hm. congruence.
Qed.

Lemma X2_witness :
  f_emd (extract_fields (py "EMD waived. Fee Rs.250 only")) <> [].
Proof.
  apply X2_deposit_not_missed.
  exists (py "EMD waived. Fee "), (py "Rs."), [], (py "250"), (py " only").
  unfold money_occurrence, is_marker.
  repeat split; try (vm_compute; reflexivity); auto.
  discriminate.
Defined.

(** X3.  The deposit amount is either empty or a marker, one space and a
    numeric token, where the marker is one of the four markers up to case,
    the token is a non-empty run of digits, commas and points, and the two
    stand in the text in this order with nothing but whitespace between
    them. *)
Theorem X3_deposit_shape (text : str) :
  f_emd (extract_fields text) = [] \/
  exists pre m ws num post,
    text = pre ++ m ++ ws ++ num ++ post /\
    is_marker_ci m = true /\ forallb is_space ws = true /\
    num <> [] /\ forallb is_numeric num = true /\
    f_emd (extract_fields text) = m ++ py " " ++ num.
Proof.
  unfold extract_fields. cbn [f_emd].
  destruct (search true emd_re text) as [em|] eqn:Ht.
  - right. apply search_sound in Ht.
    destruct Ht as (pre & post & Htext & _ & Hm & _).
    subst text. unfold emd_re in Hm.
    inversion Hm; subst; clear Hm.
    repeat match goal with
           | H : matches true (Cat (Rep _ _ _ _) general_re) _ _ _ _ |- _ =>
               inversion H; subst; clear H
           | H : matches true (Rep _ _ _ _) _ _ _ _ |- _ =>
               inversion H; subst; clear H
           end.
    match goal with
    | H : matches true general_re _ _ _ _ |- _ =>
        apply matches_general in H;
        destruct H as (m & ws & num & -> & Hmk & Hws & Hne & Hnum & Hc)
    end.
    match goal with
    | E : ?w1 ++ ?w3 ++ _ = m_text em |- _ =>
        exists (pre ++ w1 ++ w3), m, ws, num, post; repeat split; auto;
        [ try rewrite <- E; rewrite <- !app_assoc; reflexivity
        | unfold group; rewrite Hc; reflexivity ]
    end.
  - destruct (search false general_re text) as [gm|] eqn:Hs; [|left; auto].
    right. apply search_sound in Hs.
    destruct Hs as (pre & post & Htext & _ & Hm & _).
    apply matches_general in Hm.
    destruct Hm as (m & ws & num & Hw & Hmk & Hws & Hne & Hnum & Hc).
    exists pre, m, ws, num, post. repeat split; auto.
    + rewrite Htext, Hw, <- !app_assoc. reflexivity.
    + unfold group. rewrite Hc. reflexivity.
Qed.

Section NameFacts.

Lemma split_chr_nonempty (sep : char) (s : str) : split_chr sep s <> [].
Proof.
  destruct s as [|c tl]; simpl; [discriminate|].
  destruct (c =? sep); [discriminate|].
  destruct (split_chr sep tl); discriminate.
Qed.

Lemma split_chr_no_sep (sep : char) (s : str) :
  ~ In sep s -> split_chr sep s = [s].
Proof.
  induction s as [|c tl IH]; simpl; intro H; auto.
  destruct (N.eqb_spec c sep) as [->|Hc]; [tauto|].
  rewrite IH by tauto. reflexivity.
Qed.

(** Splitting at a separator splits the two sides of it. *)
Lemma split_chr_app (sep : char) (a b : str) :
  split_chr sep (a ++ sep :: b) = split_chr sep a ++ split_chr sep b.
Proof.
  induction a as [|x a IH]; simpl.
  - rewrite N.eqb_refl. reflexivity.
  - destruct (x =? sep); rewrite IH; [reflexivity|].
    pose proof (split_chr_nonempty sep a) as Hne.
    destruct (split_chr sep a); [congruence | reflexivity].
Qed.

Lemma last_app_nonempty (A : Type) (l1 l2 : list A) (d : A) :
  l2 <> [] -> last (l1 ++ l2) d = last l2 d.
Proof.
  intro H. induction l1 as [|x l1 IH]; simpl; auto.
  destruct (l1 ++ l2) eqn:E; auto.
  apply app_eq_nil in E. tauto.
Qed.

End NameFacts.

(** X4.  The extension that decides the extractor is what follows the last
    point of the lower-cased file name, and the whole lower-cased name when
    it has no point. *)
Theorem X4_extension_after_last_point (E : env) (name : str) :
  (~ In 46 (str_lower E name) -> extension E name = str_lower E name) /\
  (forall a b,
      str_lower E name = a ++ 46 :: b -> ~ In 46 b -> extension E name = b).
Proof.
  unfold extension. split.
  - intro H. rewrite split_chr_no_sep by exact H. reflexivity.
  - intros a b -> Hb. rewrite split_chr_app.
    rewrite last_app_nonempty by apply split_chr_nonempty.
    rewrite split_chr_no_sep by exact Hb. reflexivity.
Qed.

Lemma X4_witness :
  extension Sample.E (py "PDF") = py "pdf" /\
  extension Sample.E (py "plan.v2.Docx") = py "docx".
Proof.
  split.
  - apply (proj1 (X4_extension_after_last_point Sample.E (py "PDF"))).
    vm_compute. intros [H|[H|[H|[]]]]; discriminate.
  - apply (proj2 (X4_extension_after_last_point Sample.E (py "plan.v2.Docx"))
                 (py "plan.v2")).
    + vm_compute. reflexivity.
    + vm_compute. intros [H|[H|[H|[H|[]]]]]; discriminate.
Defined.

Section SummaryFacts.

Lemma join_cons (sep p : str) (l : list str) :
  l <> [] -> join sep (p :: l) = p ++ sep ++ join sep l.
Proof. destruct l; [congruence | reflexivity]. Qed.

Lemma join_firstn_length (sep : str) (n : nat) (l : list str) :
  (length (join sep (firstn n l)) <= length (join sep l))%nat.
Proof.
  revert n. induction l as [|p l IH]; intros [|n]; simpl firstn;
    try (simpl; lia).
  destruct l as [|q l]; [rewrite firstn_nil; simpl; lia|].
  rewrite (join_cons sep p (l := q :: l)) by discriminate.
  specialize (IH n).
  destruct (firstn n (q :: l)) eqn:Ef.
  - simpl. rewrite !length_app. lia.
  - rewrite join_cons by discriminate. rewrite !length_app. lia.
Qed.

Lemma sentences_nonempty (gap : bool) (cur t : str) :
  sentences gap cur t <> [].
Proof.
  revert gap cur. induction t as [|x tl IH]; intros gap cur; simpl.
  - discriminate.
  - destruct (is_space x && (gap || ends_with_terminator cur)); auto.
    destruct gap; [auto | discriminate].
Qed.

(** The sentences, joined by single spaces, are no longer than what was
    read. *)
Lemma sentences_join_length (gap : bool) (cur t : str) :
  (length (join [32%N] (sentences gap cur t)) <= length cur + length t)%nat.
Proof.
  revert gap cur. induction t as [|x tl IH]; intros gap cur;
    cbn [sentences].
  - simpl. rewrite length_rev. lia.
  - destruct (is_space x && (gap || ends_with_terminator cur)).
    + destruct gap.
      * specialize (IH true cur). simpl length. lia.
      * rewrite join_cons by apply sentences_nonempty.
        specialize (IH true []). rewrite !length_app, length_rev.
        simpl length in *. lia.
    + specialize (IH false (x :: cur)). simpl length in *. lia.
Qed.

Lemma lstrip_length (s : str) : (length (lstrip s) <= length s)%nat.
Proof.
  induction s as [|c tl IH]; simpl; auto.
  destruct (is_space c); simpl; lia.
Qed.

Lemma strip_length (s : str) : (length (strip s) <= length s)%nat.
Proof.
  unfold strip, rstrip. rewrite length_rev.
  eapply Nat.le_trans; [apply lstrip_length|].
  rewrite length_rev. apply lstrip_length.
Qed.

Lemma summary_length (text : str) :
  (length (simple_summary text) <= length text)%nat.
Proof.
  unfold simple_summary. rewrite split_sentences.
  eapply Nat.le_trans; [apply join_firstn_length|].
  eapply Nat.le_trans; [apply (sentences_join_length false [])|].
  simpl. apply strip_length.
Qed.

End SummaryFacts.

(** X5.  The summary is never longer than the text: the sentences are parts
    of the trimmed text and each boundary between two of them, at least one
    character of whitespace, is replaced by one space. *)
Theorem X5_summary_not_longer (text : str) :
  (length (simple_summary text) <= length text)%nat.
Proof. apply summary_length. Qed.

(** ** Further properties of the record builder *)

Section ProcessFacts.
Variable E : env.

Lemma dict_get_set_other (V : Type) (d : dict V) (k k' : str) (v : V) :
  k' <> k -> dict_get (dict_set d k v) k' = dict_get d k'.
Proof.
  intro Hk. induction d as [|[k0 v0] d IH]; simpl.
  - destruct (str_eqb k k') eqn:H; auto.
    apply str_eqb_eq in H. congruence.
  - destruct (str_eqb k0 k) eqn:H0; simpl.
    + apply str_eqb_eq in H0. subst k0.
      destruct (str_eqb k k') eqn:H; auto.
      apply str_eqb_eq in H. congruence.
    + destruct (str_eqb k0 k'); auto.
Qed.

Lemma str_eqb_neq' (a b : str) : str_eqb a b = false <-> a <> b.
Proof.
  rewrite <- str_eqb_eq. destruct (str_eqb a b); split; congruence.
Qed.

(** [process_file], step by step: the id and the path, the saved file, the
    one extractor of the extension, the tender built from its result, the
    store and the data file. *)
Lemma process_file_cases (up : upload) (w : world) :
  let name := u_filename up in
  let fid := uuid4 E (ticks w) in
  let sp := path_join (UPLOAD_DIR E) (fid ++ py "_" ++ name) in
  let fs := (sp, u_content up) :: files w in
  let ext := extension E name in
  exists txt0 r ev,
    ((ext = py "pdf" /\ txt0 = pdftotext E fs sp /\ r = [] /\
      ev = [CallPdf sp]) \/
     (ext = py "docx" /\ txt0 = docx_text E fs sp /\ r = [] /\
      ev = [CallDocx sp]) \/
     ((ext = py "xlsx" \/ ext = py "xls") /\ txt0 = [] /\
      r = xlsx_rows E fs sp /\ ev = [CallXlsx sp]) \/
     (~ In ext [py "pdf"; py "docx"; py "xlsx"; py "xls"] /\ txt0 = [] /\
      r = [] /\ ev = [])) /\
    let txt := fallback_text txt0 r in
    let t := mkTender fid name sp txt r (simple_summary txt)
                      (f_emd (extract_fields txt))
                      (f_due_date (extract_fields txt))
                      (f_eligibility (extract_fields txt))
                      (now_isoformat E (S (ticks w))) in
    process_file E up w =
    (t, mkWorld (dict_set (tenders w) fid t)
                (Some (json_of_tenders (dict_set (tenders w) fid t)))
                fs (calls w ++ ev) (S (S (ticks w)))).
Proof.
  intros name fid sp fs ext.
  assert (Hrun : forall txt0 r ev,
    extract_by_ext E ext sp
                   (mkWorld (tenders w) (data_file w) fs (calls w)
                            (S (ticks w))) =
    ((txt0, r), mkWorld (tenders w) (data_file w) fs (calls w ++ ev)
                        (S (ticks w))) ->
    let txt := fallback_text txt0 r in
    let t := mkTender fid name sp txt r (simple_summary txt)
                      (f_emd (extract_fields txt))
                      (f_due_date (extract_fields txt))
                      (f_eligibility (extract_fields txt))
                      (now_isoformat E (S (ticks w))) in
    process_file E up w =
    (t, mkWorld (dict_set (tenders w) fid t)
                (Some (json_of_tenders (dict_set (tenders w) fid t)))
                fs (calls w ++ ev) (S (S (ticks w))))).
  { intros txt0 r ev Hex.
    unfold process_file, ingest, new_uuid, tick, save_upload, ret, bind.
    cbn beta iota. fold name fid sp fs ext.
    cbn [tenders data_file files calls ticks]. fold fs.
    rewrite Hex.
    unfold assemble, now, tick, put, save_tenders, ret, bind.
    cbn [fst snd tenders data_file files calls ticks].
    rewrite summary_of_text, fields_of_text. reflexivity. }
  unfold extract_by_ext in Hrun.
  destruct (str_eqb ext (py "pdf")) eqn:H1.
  { apply str_eqb_eq in H1.
    exists (pdftotext E fs sp), [], [CallPdf sp]. split; [left; auto|].
    apply Hrun. reflexivity. }
  destruct (str_eqb ext (py "docx")) eqn:H2.
  { apply str_eqb_eq in H2.
    exists (docx_text E fs sp), [], [CallDocx sp].
    split; [right; left; auto|]. apply Hrun. reflexivity. }
  destruct (str_eqb ext (py "xlsx") || str_eqb ext (py "xls")) eqn:H3.
  { apply orb_true_iff in H3. rewrite !str_eqb_eq in H3.
    exists [], (xlsx_rows E fs sp), [CallXlsx sp].
    split; [right; right; left; auto|]. apply Hrun. reflexivity. }
  apply orb_false_iff in H3. destruct H3 as [H3 H4].
  exists [], [], []. split.
  - right; right; right. repeat split; auto.
    rewrite str_eqb_neq' in H1, H2, H3, H4.
    intros [H|[H|[H|[H|[]]]]]; congruence.
  - apply Hrun. unfold ret. rewrite app_nil_r. reflexivity.
Qed.

End ProcessFacts.

Lemma eligibility_bound (text : str) :
  (length (f_eligibility (extract_fields text)) <= 203)%nat.
Proof.
  unfold extract_fields. cbn [f_eligibility].
  destruct (Nat.ltb_spec 200 (length text)) as [Hlt|Hle]; [|lia].
  rewrite length_app, length_firstn.
  change (length (py "...")) with 3%nat. lia.
Qed.

Lemma process_file_stored (E : env) (up : upload) (w : world) :
  let t := fst (process_file E up w) in
  let w' := snd (process_file E up w) in
  get (id_ t) w' = Some t /\
  (forall k, k <> id_ t -> get k w' = get k w) /\
  files w' = (path t, u_content up) :: files w /\
  filename t = u_filename up /\
  path t = path_join (UPLOAD_DIR E) (id_ t ++ py "_" ++ u_filename up) /\
  data_file w' = Some (json_of_tenders (tenders w')).
Proof.
  destruct (process_file_cases E up w) as (txt0 & r & ev & _ & Hrun).
  cbv zeta in *. rewrite Hrun.
  cbn [fst snd id_ path filename files data_file tenders]. unfold get.
  cbn [tenders]. repeat split; auto.
  - apply dict_get_set_same.
  - intros k Hk. apply dict_get_set_other. exact Hk.
Qed.

(** X6.  [process_file] stores the tender it returns under its id and leaves
    every other id as it was; the uploaded content is on disk under the path
    of the tender, which is the upload directory joined with the id, an
    underscore and the file name; the data file holds the whole store. *)
Theorem X6_process_file_stores (E : env) (up : upload) (w : world) :
  let t := fst (process_file E up w) in
  let w' := snd (process_file E up w) in
  get (id_ t) w' = Some t /\
  (forall k, k <> id_ t -> get k w' = get k w) /\
  files w' = (path t, u_content up) :: files w /\
  filename t = u_filename up /\
  path t = path_join (UPLOAD_DIR E) (id_ t ++ py "_" ++ u_filename up) /\
  data_file w' = Some (json_of_tenders (tenders w')).
Proof. apply process_file_stored. Qed.

Lemma X6_witness :
  get (py "zz") (snd (process_file Sample.E Sample.txt_upload Sample.w0)) =
  get (py "zz") Sample.w0.
Proof.
  apply (proj1 (proj2 (X6_process_file_stores Sample.E Sample.txt_upload
                                              Sample.w0))).
  vm_compute. discriminate.
Defined.

(** X7.  [process_file] calls one extractor at most, the one of the
    extension, on the path it saved the upload under: a PDF or DOCX file
    gets the text of its extractor and no rows, a spreadsheet gets the rows
    of the parser and, as text, their flattening. *)
Theorem X7_one_extractor (E : env) (up : upload) (w : world) :
  let ext := extension E (u_filename up) in
  let t := fst (process_file E up w) in
  let w' := snd (process_file E up w) in
  (ext = py "pdf" ->
   calls w' = calls w ++ [CallPdf (path t)] /\
   text t = pdftotext E (files w') (path t) /\ table_rows t = []) /\
  (ext = py "docx" ->
   calls w' = calls w ++ [CallDocx (path t)] /\
   text t = docx_text E (files w') (path t) /\ table_rows t = []) /\
  (ext = py "xlsx" \/ ext = py "xls" ->
   calls w' = calls w ++ [CallXlsx (path t)] /\
   table_rows t = xlsx_rows E (files w') (path t) /\
   text t = match table_rows t with
            | [] => []
            | _ :: _ => flatten_rows (table_rows t)
            end) /\
  (length (calls w') <= S (length (calls w)))%nat.
Proof.
  destruct (process_file_cases E up w) as (txt0 & r & ev & Hcase & Hrun).
  cbv zeta in *. rewrite Hrun.
  cbn [fst snd path text table_rows files calls].
  assert (Hpd : py "pdf" <> py "docx") by discriminate.
  assert (Hpx : py "pdf" <> py "xlsx") by discriminate.
  assert (Hps : py "pdf" <> py "xls") by discriminate.
  assert (Hdx : py "docx" <> py "xlsx") by discriminate.
  assert (Hds : py "docx" <> py "xls") by discriminate.
  destruct Hcase as [(He & -> & -> & ->)|[(He & -> & -> & ->)
                    |[(He & -> & -> & ->)|(He & -> & -> & ->)]]].
  - repeat split; try (intros; exfalso; intuition congruence);
      try (rewrite length_app; simpl; lia);
      try (destruct (pdftotext E _ _); reflexivity).
  - repeat split; try (intros; exfalso; intuition congruence);
      try (rewrite length_app; simpl; lia);
      try (destruct (docx_text E _ _); reflexivity).
  - repeat split; try (intros; exfalso; intuition congruence);
      try (rewrite length_app; simpl; lia);
      try (destruct (xlsx_rows E _ _); reflexivity).
  - repeat split;
      try (intros; exfalso; apply He; simpl; intuition congruence);
      try (rewrite length_app; simpl; lia).
Qed.

Lemma X7_witness :
  calls (snd (process_file Sample.E Sample.xlsx_upload Sample.w0)) =
  calls Sample.w0 ++
  [CallXlsx (path (fst (process_file Sample.E Sample.xlsx_upload Sample.w0)))].
Proof.
  refine (proj1 (proj1 (proj2 (proj2
            (X7_one_extractor Sample.E Sample.xlsx_upload Sample.w0))) _)).
  left. vm_compute. reflexivity.
Defined.

(** X8.  Every tender that [process_file] builds keeps these relations: its
    summary and its three fields are those of its stored text, its
    eligibility excerpt has at most 203 characters, its summary is no longer
    than its text, and it has rows only when the extension is xlsx or xls,
    in which case its text is the flattening of the rows. *)
Theorem X8_tender_invariants (E : env) (up : upload) (w : world) :
  let t := fst (process_file E up w) in
  summary t = simple_summary (text t) /\
  emd t = f_emd (extract_fields (text t)) /\
  due_date t = f_due_date (extract_fields (text t)) /\
  eligibility t = f_eligibility (extract_fields (text t)) /\
  (length (eligibility t) <= 203)%nat /\
  (length (summary t) <= length (text t))%nat /\
  (table_rows t <> [] ->
   (extension E (u_filename up) = py "xlsx" \/
    extension E (u_filename up) = py "xls") /\
   text t = flatten_rows (table_rows t)).
Proof.
  destruct (process_file_cases E up w) as (txt0 & r & ev & Hcase & Hrun).
  cbv zeta in *. rewrite Hrun.
  cbn [fst text table_rows summary emd due_date eligibility].
  split; [reflexivity|]. split; [reflexivity|]. split; [reflexivity|].
  split; [reflexivity|]. split; [apply eligibility_bound|].
  split; [apply summary_length|].
  intro Hr.
  destruct Hcase as [(_ & _ & -> & _)|[(_ & _ & -> & _)
                    |[(He & -> & _ & _)|(_ & _ & -> & _)]]];
    try congruence.
  split; [exact He|]. destruct r; [congruence | reflexivity].
Qed.

Lemma X8_witness :
  text (fst (process_file Sample.E Sample.xlsx_upload Sample.w0)) =
  flatten_rows
    (table_rows (fst (process_file Sample.E Sample.xlsx_upload Sample.w0))).
Proof.
  pose proof (X8_tender_invariants Sample.E Sample.xlsx_upload Sample.w0) as G.
  cbv zeta in G. destruct G as (_ & _ & _ & _ & _ & _ & G).
  apply G. vm_compute. discriminate.
Defined.

Section StoreInvariants.
Variable E : env.

Lemma dict_set_in (V : Type) (d : dict V) (k k' : str) (v v' : V) :
  In (k', v') (dict_set d k v) -> (k', v') = (k, v) \/ In (k', v') d.
Proof.
  induction d as [|[k0 v0] d IH]; simpl.
  - intros [H|[]]; auto.
  - destruct (str_eqb k0 k); simpl; intros [H|H]; auto.
    destruct (IH H); auto.
Qed.


(** What [process_file] does to the store. *)
Lemma process_file_store (up : upload) (w : world) :
  let t := fst (process_file E up w) in
  let w' := snd (process_file E up w) in
  id_ t = uuid4 E (ticks w) /\
  filename t = u_filename up /\
  uploaded_at t = now_isoformat E (S (ticks w)) /\
  tenders w' = dict_set (tenders w) (id_ t) t /\
  data_file w' = Some (json_of_tenders (tenders w')) /\
  ticks w' = S (S (ticks w)).
Proof.
  destruct (process_file_cases E up w) as (txt0 & r & ev & _ & Hrun).
  cbv zeta in *. rewrite Hrun.
  cbn [fst snd id_ filename uploaded_at tenders data_file ticks]. auto 7.
Qed.

End StoreInvariants.

(** X9.  [process_file] keeps the store in order: ids stay distinct and each
    tender stays under its own id; and the data file it writes, loaded at
    the next start, gives exactly the store it left. *)
Theorem X9_store_survives_restart (E : env) (up : upload) (w : world) :
  dict_wf (tenders w) ->
  let w' := snd (process_file E up w) in
  dict_wf (tenders w') /\
  (ids_match (tenders w) -> ids_match (tenders w')) /\
  load_tenders (data_file w') = Some (tenders w').
Proof.
  intro Hwf. cbv zeta.
  destruct (process_file_store E up w) as (_ & _ & _ & Htd & Hdf & _).
  assert (Hwf' : dict_wf (tenders (snd (process_file E up w)))).
  { rewrite Htd. apply dict_set_wf, Hwf. }
  split; [exact Hwf'|]. split.
  - intros Hids k t Hin. rewrite Htd in Hin.
    apply dict_set_in in Hin. destruct Hin as [Heq|Hin].
    + inversion Heq; subst. reflexivity.
    + apply Hids, Hin.
  - rewrite Hdf. cbn [load_tenders].
    apply tenders_of_json_of_tenders, Hwf'.
Qed.

Lemma X9_witness :
  load_tenders
    (data_file (snd (process_file Sample.E Sample.xlsx_upload Sample.w0))) =
  Some (tenders (snd (process_file Sample.E Sample.xlsx_upload Sample.w0))).
Proof.
  refine (proj2 (proj2 (X9_store_survives_restart Sample.E Sample.xlsx_upload
                                                  Sample.w0 _))).
  constructor.
Defined.

(** ** The routes *)

Section UploadFacts.
Variable E : env.



End UploadFacts.





Section LookupFacts.




End LookupFacts.



Section PathFacts.

Lemma rsplit_no_slash (n : str) :
  ~ In 47 n -> Web.rsplit_slash n = ([], n).
Proof.
  induction n as [|c tl IH]; simpl; intro H; auto.
  rewrite IH by tauto.
  destruct (N.eqb_spec c 47) as [->|Hc]; [tauto | reflexivity].
Qed.

(** The last slash of a path cuts it into the head, slash included, and the
    name. *)
Lemma rsplit_app_slash (a n : str) :
  ~ In 47 n -> Web.rsplit_slash (a ++ 47 :: n) = (a ++ [47], n).
Proof.
  intro Hn. induction a as [|x a IH]; simpl.
  - rewrite rsplit_no_slash by exact Hn. reflexivity.
  - rewrite IH. destruct (a ++ [47]) eqn:Ea; [|reflexivity].
    apply app_eq_nil in Ea. destruct Ea; discriminate.
Qed.

Lemma upload_dir_shape (E : env) :
  exists x, UPLOAD_DIR E = x ++ py "uploads".
Proof.
  unfold UPLOAD_DIR, path_join.
  change (py "uploads") with [117; 112; 108; 111; 97; 100; 115].
  cbv iota beta.
  destruct (rev (BASE_DIR E)) as [|c tl].
  - exists []. reflexivity.
  - destruct (N.eqb_spec c 47) as [->|Hc].
    + exists (BASE_DIR E). reflexivity.
    + exists (BASE_DIR E ++ py "/").
      rewrite <- app_assoc.
      destruct c as [|p]; [reflexivity|].
      repeat (destruct p as [p|p|]; try reflexivity); congruence.
Qed.

(** A name without slash, joined to the upload directory, is found again by
    [dirname] and [basename]. *)
Lemma upload_path_parts (E : env) (n : str) :
  n <> [] -> ~ In 47 n ->
  path_join (UPLOAD_DIR E) n = UPLOAD_DIR E ++ 47 :: n /\
  Web.dirname (path_join (UPLOAD_DIR E) n) = UPLOAD_DIR E /\
  Web.basename (path_join (UPLOAD_DIR E) n) = n.
Proof.
  intros Hne Hn. destruct (upload_dir_shape E) as [x Hx].
  assert (Hrev : rev (UPLOAD_DIR E) = 115 :: rev (x ++ py "upload")).
  { rewrite Hx. change (py "uploads") with (py "upload" ++ [115]).
    rewrite app_assoc, rev_app_distr. reflexivity. }
  assert (Hjoin : path_join (UPLOAD_DIR E) n = UPLOAD_DIR E ++ 47 :: n).
  { unfold path_join. rewrite Hrev.
    destruct n as [|c tl]; [congruence|].
    destruct (N.eqb_spec c 47) as [->|Hc]; [simpl in Hn; tauto|].
    destruct c as [|p]; [reflexivity|].
    repeat (destruct p as [p|p|]; try reflexivity); congruence. }
  split; [exact Hjoin|]. rewrite Hjoin.
  unfold Web.dirname, Web.basename. rewrite rsplit_app_slash by exact Hn.
  cbn [fst snd]. split; [|reflexivity].
  assert (Htruthy : truthy (UPLOAD_DIR E ++ [47]) = true).
  { destruct (UPLOAD_DIR E); reflexivity. }
  assert (Hnot : forallb (N.eqb 47) (UPLOAD_DIR E ++ [47]) = false).
  { rewrite Hx, <- app_assoc, forallb_app.
    change (forallb (N.eqb 47) (py "uploads" ++ [47])) with false.
    apply andb_false_r. }
  rewrite Htruthy, Hnot. cbn [andb negb].
  unfold Web.rstrip_slash. rewrite rev_app_distr. simpl rev at 2.
  cbn [app Web.lstrip_slash]. rewrite N.eqb_refl. rewrite Hrev.
  cbn [Web.lstrip_slash]. change (115 =? 47) with false. cbv iota.
  rewrite <- Hrev. apply rev_involutive.
Qed.

End PathFacts.

(** X13.  When neither the new id nor the file name holds a slash, the
    download of a tender just processed is served from the upload directory
    under the name made of the id, an underscore and the file name, and the
    file of that directory and name is the one the upload was saved to, with
    the uploaded content. *)
Theorem X13_download_serves_upload (E : env) (up : upload) (w : world) :
  ~ In 47 (uuid4 E (ticks w)) -> ~ In 47 (u_filename up) ->
  let t := fst (process_file E up w) in
  let w' := snd (process_file E up w) in
  let name := id_ t ++ py "_" ++ u_filename up in
  Web.download (id_ t) w' =
  Web.mkOutcome (Web.Send_file (UPLOAD_DIR E) name) [] w' /\
  In (path_join (UPLOAD_DIR E) name, u_content up) (files w').
Proof.
  intros Hid Hname. cbv zeta.
  destruct (process_file_stored E up w) as (Hget & _ & Hfiles & _ & Hpath & _).
  destruct (process_file_store E up w) as (Hfid & _).
  unfold Web.download. rewrite Hget.
  assert (Hn : ~ In 47 (id_ (fst (process_file E up w)) ++ py "_" ++
                        u_filename up)).
  { rewrite Hfid, !in_app_iff. intros [H|[H|H]]; auto.
    simpl in H. destruct H as [H|[]]. discriminate. }
  assert (Hne : id_ (fst (process_file E up w)) ++ py "_" ++ u_filename up
                <> []).
  { intro H. apply app_eq_nil in H. destruct H as [_ H]. discriminate. }
  destruct (upload_path_parts E Hne Hn) as (_ & Hdir & Hbase).
  rewrite Hpath, Hdir, Hbase. split; [reflexivity|].
  rewrite Hfiles, Hpath. left. reflexivity.
Qed.

Lemma X13_witness :
  Web.resp (Web.download
              (id_ (fst (process_file Sample.E Sample.txt_upload Sample.w0)))
              (snd (process_file Sample.E Sample.txt_upload Sample.w0))) =
  Web.Send_file (py "/srv/app/uploads") (py "id_notes.TXT").
Proof.
  assert (H1 : ~ In 47 (uuid4 Sample.E (ticks Sample.w0))).
  { vm_compute. intros [H|[H|[]]]; discriminate. }
  assert (H2 : ~ In 47 (u_filename Sample.txt_upload)).
  { vm_compute. intuition discriminate. }
  pose proof (proj1 (@X13_download_serves_upload Sample.E Sample.txt_upload
                                                 Sample.w0 H1 H2)) as G.
  rewrite G. reflexivity.
Defined.

Section ListingFacts.

(** The head of a descending list is not below any of its elements. *)
Lemma newest_is_head (l out : list tender) (t : tender) :
  Permutation out (l ++ [t]) ->
  StronglySorted (desc uploaded_at) out ->
  (forall x, In x l -> str_ltb (uploaded_at x) (uploaded_at t) = true) ->
  hd_error out = Some t.
Proof.
  intros Hp Hs Hlt.
  destruct out as [|h out'].
  - apply Permutation_nil in Hp. destruct l; discriminate.
  - simpl. f_equal.
    assert (Hh : In h (l ++ [t])) by (apply (Permutation_in _ Hp); left; auto).
    assert (Ht : In t (h :: out')).
    { apply (Permutation_in _ (Permutation_sym Hp)).
      apply in_or_app. right. left. reflexivity. }
    apply in_app_iff in Hh. destruct Hh as [Hh|[Hh|[]]]; auto.
    destruct Ht as [Ht|Ht]; auto.
    inversion Hs as [|? ? _ Hall]; subst.
    rewrite Forall_forall in Hall. specialize (Hall t Ht).
    unfold desc in Hall. rewrite (Hlt h Hh) in Hall. discriminate.
Qed.

End ListingFacts.

(** X14.  When the id is new and the time stamp of the upload is above the
    stamps of all stored tenders, the tender just processed is the first of
    the listing. *)
Theorem X14_newest_listed_first (E : env) (up : upload) (w : world) :
  ~ In (uuid4 E (ticks w)) (dict_keys (tenders w)) ->
  (forall x, In x (dict_values (tenders w)) ->
             str_ltb (uploaded_at x) (now_isoformat E (S (ticks w))) = true) ->
  hd_error (tender_list (snd (process_file E up w))) =
  Some (fst (process_file E up w)).
Proof.
  intros Hnew Hlt.
  destruct (process_file_store E up w) as (Hid & _ & Hstamp & Htd & _).
  assert (Hvals : dict_values (tenders (snd (process_file E up w))) =
                  dict_values (tenders w) ++ [fst (process_file E up w)]).
  { rewrite Htd, dict_set_fresh by (rewrite Hid; exact Hnew).
    unfold dict_values. rewrite map_app. reflexivity. }
  unfold tender_list. rewrite Hvals.
  destruct (sorted_reverse_spec uploaded_at
              (dict_values (tenders w) ++ [fst (process_file E up w)]))
    as (Hp & Hs & _).
  apply newest_is_head with (l := dict_values (tenders w)); auto.
  intros x Hx. rewrite Hstamp. apply Hlt, Hx.
Qed.

Lemma X14_witness :
  hd_error
    (tender_list
       (snd (process_file Sample.E Sample.xlsx_upload
               (snd (process_file Sample.E Sample.txt_upload Sample.w0))))) =
  Some (fst (process_file Sample.E Sample.xlsx_upload
               (snd (process_file Sample.E Sample.txt_upload Sample.w0)))).
Proof.
  apply X14_newest_listed_first.
  - vm_compute. intros [H|[]]. discriminate.
  - vm_compute. intros x [H|[]]. subst x. reflexivity.
Defined.

(** ** The DOCX cleaner *)

Section TagFacts.

(** A greedy repetition without upper bound, before a continuation that
    fails on every character of the set, takes the whole run or fails. *)
Lemma rep_greedy_then_stop (R : Type) (ic : bool) (cs : cset) :
  forall t lo b c (k : state -> option R),
    (forall b' x tl c', cset_mem ic cs x = true ->
                        k (mkState b' (x :: tl) c') = None) ->
    rep ic cs true lo None b t c k =
    if (lo <=? length (fst (span (cset_mem ic cs) t)))%nat
    then k (mkState (rev (fst (span (cset_mem ic cs) t)) ++ b)
                    (snd (span (cset_mem ic cs) t)) c)
    else None.
Proof.
  induction t as [|x tl IH]; intros lo b c k Hk; simpl.
  - destruct lo; reflexivity.
  - destruct (cset_mem ic cs x) eqn:Hx.
    + rewrite IH by exact Hk.
      destruct (span (cset_mem ic cs) tl) as [w t'] eqn:Hs.
      cbn [fst snd]. rewrite rev_cons_app.
      assert (Hstop : match lo with
                      | O => k (mkState b (x :: tl) c)
                      | S _ => None
                      end = None)
        by (destruct lo; auto).
      rewrite Hstop.
      assert (Hle : (pred lo <=? length w)%nat = (lo <=? length (x :: w))%nat).
      { destruct lo; reflexivity. }
      rewrite <- Hle.
      destruct (pred lo <=? length w)%nat; [|reflexivity].
      destruct (k (mkState (rev w ++ x :: b) t' c)); reflexivity.
    + simpl. destruct lo; reflexivity.
Qed.

Lemma not_gt_mem (x : char) :
  cset_mem false (CNot (chr_of ">")) x = not_gt x.
Proof.
  unfold not_gt. change (chr_of ">") with (CChar 62).
  change (cset_mem false (CNot (CChar 62)) x) with (negb (62 =? x)).
  rewrite N.eqb_sym. reflexivity.
Qed.

(** One attempt of the tag pattern: it succeeds exactly on ['<'] followed by
    a whole tag, and takes the tag up to its ['>']. *)
Lemma match_here_tag (b tl : str) (x : char) :
  match_here false Web.tag_re false b (x :: tl) =
  if (x =? 60) && tag_at tl
  then Some (mkState (62 :: rev (fst (span not_gt tl)) ++ x :: b)
                     (List.tl (snd (span not_gt tl))) [])
  else None.
Proof.
  unfold match_here, Web.tag_re. cbn [run before rest caps].
  change (chr_of "<") with (CChar 60). change (chr_of ">") with (CChar 62).
  change (cset_mem false (CChar 60) x) with (60 =? x).
  rewrite (N.eqb_sym 60 x).
  destruct (x =? 60); [|reflexivity]. cbn [andb].
  rewrite rep_greedy_then_stop.
  - rewrite (span_ext (cset_mem false (CNot (CChar 62))) not_gt)
      by apply not_gt_mem.
    unfold tag_at.
    pose proof (span_stop not_gt tl) as Hstop.
    destruct (1 <=? length (fst (span not_gt tl)))%nat; [|reflexivity].
    cbn [andb before rest caps].
    destruct (snd (span not_gt tl)) as [|y t'']; [reflexivity|].
    change (cset_mem false (CChar 62) y) with (62 =? y).
    unfold not_gt in Hstop. apply negb_false_iff in Hstop.
    apply N.eqb_eq in Hstop. subst y. reflexivity.
  - intros b' y t c' Hy. cbn [run before rest caps].
    change (cset_mem false (CChar 62) y) with (62 =? y).
    change (cset_mem false (CNot (CChar 62)) y) with (negb (62 =? y)) in Hy.
    apply negb_true_iff in Hy. rewrite Hy. reflexivity.
Qed.

Lemma match_here_tag_end (b : str) :
  match_here false Web.tag_re false b [] = None.
Proof. reflexivity. Qed.

Lemma join_nil_concat (l : list str) : join [] l = concat l.
Proof.
  induction l as [|p l IH]; [reflexivity|].
  destruct l as [|q l]; [simpl; rewrite app_nil_r; reflexivity|].
  change (join [] (p :: q :: l)) with (p ++ [] ++ join [] (q :: l)).
  rewrite IH. reflexivity.
Qed.

(** The substitution loop on the tag pattern is the cleaning written out. *)
Lemma split_scan_untag :
  forall t n b cur,
    concat (split_scan false Web.tag_re n b t cur) = rev cur ++ untag n t.
Proof.
  induction t as [|x tl IH]; intros n b cur.
  - destruct n; simpl; rewrite ?app_nil_r; reflexivity.
  - destruct n as [|n].
    + rewrite split_scan_here, match_here_tag. cbn [untag].
      destruct ((x =? 60) && tag_at tl) eqn:Htag.
      * cbn [rest length].
        apply andb_true_iff in Htag. destruct Htag as [_ Htag].
        unfold tag_at in Htag. apply andb_true_iff in Htag.
        destruct Htag as [_ Hsnd].
        pose proof (span_length not_gt tl) as Hl.
        destruct (snd (span not_gt tl)) as [|y t'']; [discriminate|].
        cbn [List.tl length] in *.
        replace (S (length tl) - length t'')%nat
          with (S (S (length (fst (span not_gt tl))))) by lia.
        cbn [pred concat]. rewrite IH. reflexivity.
      * rewrite IH. simpl. rewrite <- app_assoc. reflexivity.
    + rewrite split_scan_skip. cbn [untag]. apply IH.
Qed.

Lemma clean_xml_untag (xml : str) : Web.clean_xml xml = untag 0 xml.
Proof.
  unfold Web.clean_xml, Web.sub, Re.split.
  rewrite join_nil_concat, split_scan_untag. reflexivity.
Qed.

Lemma span_snd_nil (f : char -> bool) (t : str) :
  snd (span f t) = [] -> forallb f t = true.
Proof.
  induction t as [|x tl IH]; simpl; auto.
  destruct (f x) eqn:Hx; simpl; [|discriminate].
  destruct (span f tl); simpl in *. exact IH.
Qed.

Lemma span_all_in (f : char -> bool) (t : str) :
  forallb f t = true -> span f t = (t, []).
Proof.
  induction t as [|x tl IH]; simpl; auto.
  intro H. apply andb_true_iff in H. destruct H as [Hx Ht].
  rewrite Hx, IH by exact Ht. reflexivity.
Qed.

Lemma span_app_stop (f : char -> bool) (w post : str) (y : char) :
  forallb f w = true -> f y = false -> span f (w ++ y :: post) = (w, y :: post).
Proof.
  intros Hw Hy. induction w as [|x w IH]; simpl.
  - rewrite Hy. reflexivity.
  - simpl in Hw. apply andb_true_iff in Hw. destruct Hw as [Hx Hw].
    rewrite Hx, IH by exact Hw. reflexivity.
Qed.

Lemma untag_keeps_not_gt (t : str) :
  forall n, forallb not_gt t = true -> forallb not_gt (untag n t) = true.
Proof.
  induction t as [|x tl IH]; intros n H; [reflexivity|].
  simpl in H. apply andb_true_iff in H. destruct H as [Hx Ht].
  cbn [untag]. destruct n; [|apply IH, Ht].
  destruct ((x =? 60) && tag_at tl); [apply IH, Ht|].
  simpl. rewrite Hx. apply IH, Ht.
Qed.

(** Where no whole tag follows in the document, none follows in the cleaned
    document. *)
Lemma untag_no_new_tag (t : str) : tag_at t = false -> tag_at (untag 0 t) = false.
Proof.
  destruct t as [|y tl]; [reflexivity|].
  intro H. destruct (not_gt y) eqn:Hy.
  - assert (Hall : forallb not_gt (y :: tl) = true).
    { apply span_snd_nil. unfold tag_at in H.
      destruct (span_cons_true not_gt y tl Hy) as [Hf Hs].
      rewrite Hf, Hs in H. cbn [length Nat.leb andb] in H.
      rewrite Hs. destruct (snd (span not_gt tl)); [reflexivity|discriminate]. }
    apply (untag_keeps_not_gt _ 0) in Hall.
    unfold tag_at. rewrite (span_all_in _ _ Hall). cbn [snd].
    apply andb_false_r.
  - assert (Hy60 : (y =? 60) = false).
    { unfold not_gt in Hy. apply negb_false_iff, N.eqb_eq in Hy. subst y.
      reflexivity. }
    cbn [untag]. rewrite Hy60. cbn [andb].
    unfold tag_at. rewrite span_cons_false by exact Hy. reflexivity.
Qed.

Lemma untag_tag_free (t : str) : forall n, tag_free (untag n t) = true.
Proof.
  induction t as [|x tl IH]; intro n; [reflexivity|].
  cbn [untag]. destruct n; [|apply IH].
  destruct ((x =? 60) && tag_at tl) eqn:Htag; [apply IH|].
  cbn [tag_free]. rewrite IH, andb_true_r.
  destruct (x =? 60); [|reflexivity].
  cbn [andb] in Htag. rewrite (untag_no_new_tag _ Htag). reflexivity.
Qed.

Lemma untag_fixed (t : str) : tag_free t = true -> untag 0 t = t.
Proof.
  induction t as [|x tl IH]; [reflexivity|].
  cbn [tag_free untag]. intro H. apply andb_true_iff in H.
  destruct H as [Hx Ht]. rewrite (IH Ht).
  destruct (x =? 60); [|reflexivity].
  apply negb_true_iff in Hx. rewrite Hx. reflexivity.
Qed.

Lemma untag_skip (a t : str) : forall n,
  untag (length a + n) (a ++ t) = untag n t.
Proof.
  induction a as [|x a IH]; intro n; [reflexivity|].
  simpl. apply IH.
Qed.

Lemma untag_length (t : str) : forall n, (length (untag n t) <= length t)%nat.
Proof.
  induction t as [|x tl IH]; intro n; [simpl; lia|].
  cbn [untag]. destruct n.
  - destruct ((x =? 60) && tag_at tl).
    + specialize (IH (S (length (fst (span not_gt tl))))). simpl; lia.
    + specialize (IH 0%nat). simpl; lia.
  - specialize (IH n). simpl; lia.
Qed.

Lemma not_in_forallb (c : char) (w : str) :
  ~ In c w -> forallb (fun x => negb (x =? c)) w = true.
Proof.
  induction w as [|x w IH]; simpl; intro H; auto.
  destruct (N.eqb_spec x c) as [->|Hx]; [tauto|].
  simpl. apply IH. tauto.
Qed.

(** A whole tag in a text: the tag test holds after its ['<']. *)
Lemma tag_at_whole (w post : str) :
  w <> [] -> ~ In 62 w -> tag_at (w ++ 62 :: post) = true /\
  fst (span not_gt (w ++ 62 :: post)) = w.
Proof.
  intros Hne Hw. apply not_in_forallb in Hw.
  unfold tag_at.
  pose proof (@span_app_stop not_gt w post 62 Hw eq_refl) as Hspan.
  unfold str, char in *. rewrite Hspan.
  cbn [fst snd]. destruct w; [congruence | auto].
Qed.

Lemma tag_free_no_tag (s pre w post : str) :
  tag_free s = true -> s = pre ++ 60 :: w ++ 62 :: post ->
  w <> [] -> ~ In 62 w -> False.
Proof.
  intros Hfree -> Hne Hw.
  induction pre as [|x pre IH]; simpl in Hfree.
  - rewrite (proj1 (tag_at_whole post Hne Hw)) in Hfree. discriminate.
  - apply andb_true_iff in Hfree. destruct Hfree as [_ Hfree]. auto.
Qed.

End TagFacts.

(** X15.  The cleaned document holds no tag any more, that is, no ['<']
    followed by one or more characters other than ['>'] and then ['>'];
    cleaning it again changes nothing. *)
Theorem X15_clean_xml_leaves_no_tag (xml : str) :
  ~ (exists pre w post,
        Web.clean_xml xml = pre ++ 60 :: w ++ 62 :: post /\
        w <> [] /\ ~ In 62 w) /\
  search false Web.tag_re (Web.clean_xml xml) = None /\
  Web.clean_xml (Web.clean_xml xml) = Web.clean_xml xml.
Proof.
  pose proof (untag_tag_free xml 0) as Hfree.
  rewrite <- clean_xml_untag in Hfree.
  split; [|split].
  - intros (pre & w & post & Heq & Hne & Hw).
    exact (@tag_free_no_tag _ _ _ _ Hfree Heq Hne Hw).
  - destruct (search false Web.tag_re (Web.clean_xml xml)) as [m|] eqn:Hs;
      [|reflexivity].
    exfalso. apply search_sound in Hs.
    destruct Hs as (pre & post & Ht & _ & Hm & _).
    unfold Web.tag_re in Hm.
    change (chr_of "<") with (CChar 60) in Hm.
    change (chr_of ">") with (CChar 62) in Hm.
    inv_matches.
    repeat match goal with
           | H : cset_mem false (CChar ?p) ?x = true |- _ =>
               change ((p =? x) = true) in H; apply N.eqb_eq in H; subst x
           end.
    match goal with
    | Hall : forallb _ ?w = true, Hl : (1 <= length ?w)%nat,
      E : _ = m_text m |- _ =>
        apply (@tag_free_no_tag (Web.clean_xml xml) pre w post Hfree);
        [ rewrite Ht, <- E; simpl; rewrite <- !app_assoc; reflexivity
        | intros ->; simpl in Hl; lia
        | intro Hin; rewrite forallb_forall in Hall;
          specialize (Hall 62 Hin); discriminate ]
    end.
  - rewrite (clean_xml_untag (Web.clean_xml xml)).
    apply untag_fixed, Hfree.
Qed.

Lemma X15_witness :
  Web.clean_xml (Web.clean_xml (py "<p>a < b</p>")) =
  Web.clean_xml (py "<p>a < b</p>").
Proof.
  exact (proj2 (proj2 (X15_clean_xml_leaves_no_tag (py "<p>a < b</p>")))).
Defined.

(** X16.  Cleaning never makes a document longer and leaves a document
    without ['<'] as it is; of a document that starts with text without
    ['<'] followed by a whole tag, it keeps the text, drops the tag and
    cleans the rest.  When the document could not be read, the extracted
    text is empty. *)
Theorem X16_clean_xml_keeps_text (xml : str) :
  (length (Web.clean_xml xml) <= length xml)%nat /\
  (~ In 60 xml -> Web.clean_xml xml = xml) /\
  (forall a w post,
      xml = a ++ 60 :: w ++ 62 :: post ->
      ~ In 60 a -> w <> [] -> ~ In 62 w ->
      Web.docx_text_of (Some xml) = a ++ Web.clean_xml post) /\
  Web.docx_text_of None = [].
Proof.
  assert (Hkeep : forall a t, ~ In 60 a -> untag 0 (a ++ t) = a ++ untag 0 t).
  { induction a as [|x a IH]; intros t Ha; [reflexivity|].
    simpl in Ha. cbn [app untag].
    destruct (N.eqb_spec x 60) as [->|Hx]; [tauto|].
    cbn [andb]. rewrite IH by tauto. reflexivity. }
  split; [|split; [|split]].
  - rewrite clean_xml_untag. apply untag_length.
  - intro Hno. rewrite clean_xml_untag.
    rewrite <- (app_nil_r xml) at 1. rewrite Hkeep by exact Hno.
    simpl. apply app_nil_r.
  - intros a w post -> Ha Hne Hw. unfold Web.docx_text_of.
    rewrite !clean_xml_untag, Hkeep by exact Ha. f_equal.
    destruct (tag_at_whole post Hne Hw) as [Htag Hspan].
    cbn [untag]. unfold str, char in *.
    rewrite N.eqb_refl, Htag, Hspan. cbn [andb].
    change (w ++ 62 :: post) with (w ++ [62] ++ post).
    rewrite app_assoc.
    replace (S (length w)) with (length (w ++ [62%N]) + 0)%nat
      by (rewrite length_app; simpl; lia).
    apply untag_skip.
  - reflexivity.
Qed.

Lemma X16_witness :
  Web.docx_text_of (Some (py "EMD: <w:t>Rs 5</w:t>")) =
  py "EMD: " ++ Web.clean_xml (py "Rs 5</w:t>").
Proof.
  refine (proj1 (proj2 (proj2 (X16_clean_xml_keeps_text
                                 (py "EMD: <w:t>Rs 5</w:t>"))))
                (py "EMD: ") (py "w:t") (py "Rs 5</w:t>") _ _ _ _).
  - reflexivity.
  - vm_compute. intuition discriminate.
  - discriminate.
  - vm_compute. intuition discriminate.
Defined.

(** ** The summary of a summary *)

Section SummaryAgain.

Lemma no_boundary_snoc (u : str) (x : char) :
  forall b,
    no_boundary b (u ++ [x]) =
    no_boundary b u &&
    negb (is_space x && match rev u with
                        | y :: _ => is_terminator y
                        | [] => b
                        end).
Proof.
  induction u as [|y u IH]; intro b; simpl.
  - rewrite andb_true_r. reflexivity.
  - rewrite IH, andb_assoc. f_equal. f_equal. f_equal.
    destruct (rev u) eqn:Hr; simpl; [reflexivity|].
    reflexivity.
Qed.

Lemma no_boundary_rev_cons (x : char) (cur : str) :
  no_boundary false (rev (x :: cur)) =
  no_boundary false (rev cur) && negb (is_space x && ends_with_terminator cur).
Proof.
  simpl rev. rewrite no_boundary_snoc, rev_involutive.
  destruct cur; reflexivity.
Qed.

Lemma last_ok_app (a t : str) : t <> [] -> last_ok (a ++ t) = last_ok t.
Proof.
  intro Ht. unfold last_ok. rewrite rev_app_distr.
  destruct (rev t) eqn:Hr; [|reflexivity].
  apply (f_equal (@rev char)) in Hr. rewrite rev_involutive in Hr.
  simpl in Hr. congruence.
Qed.

Lemma last_ok_snoc (a : str) (x : char) :
  last_ok (a ++ [x]) = negb (is_space x).
Proof. unfold last_ok. rewrite rev_app_distr. reflexivity. Qed.

(** Reading a piece without boundary only lengthens the current sentence. *)
Lemma sentences_piece (p t : str) :
  forall cur,
    no_boundary (ends_with_terminator cur) p = true ->
    sentences false cur (p ++ t) = sentences false (rev p ++ cur) t.
Proof.
  induction p as [|x p IH]; intros cur H; [reflexivity|].
  simpl in H. apply andb_true_iff in H. destruct H as [Hx Hp].
  apply negb_true_iff in Hx.
  cbn [app sentences orb]. rewrite Hx.
  rewrite IH by exact Hp. rewrite rev_cons_app. reflexivity.
Qed.

(** Good pieces are the sentences of their joining. *)
Lemma sentences_of_good (l : list str) :
  good l = true -> sentences false [] (join [32] l) = l.
Proof.
  induction l as [|p l IH]; [discriminate|].
  cbn [good]. intro H. apply andb_true_iff in H. destruct H as [Hp H].
  destruct l as [|q l'].
  - cbn [join]. rewrite <- (app_nil_r p) at 1.
    rewrite sentences_piece by exact Hp.
    cbn [sentences]. rewrite app_nil_r, rev_involutive. reflexivity.
  - apply andb_true_iff in H. destruct H as [H Hgood].
    apply andb_true_iff in H. destruct H as [Hend Hq].
    rewrite join_cons by discriminate.
    rewrite sentences_piece by exact Hp. rewrite app_nil_r.
    assert (Hj : exists y j, join [32] (q :: l') = y :: j /\
                             is_space y = false).
    { destruct q as [|y q']; [discriminate|].
      simpl in Hq. apply negb_true_iff in Hq.
      destruct l'; simpl; eauto. }
    destruct Hj as (y & j & Hj & Hy).
    change ([32] ++ join [32] (q :: l')) with (32 :: join [32] (q :: l')).
    cbn [sentences orb]. rewrite Hend.
    change (is_space 32) with true. cbn [andb].
    rewrite rev_involutive. f_equal.
    pose proof (IH Hgood) as Hq'. rewrite Hj in Hq' |- *.
    cbn [sentences orb] in Hq' |- *. rewrite Hy in Hq' |- *.
    cbn [andb] in Hq' |- *. exact Hq'.
Qed.

(** The sentences of a text that does not end with whitespace are good
    pieces; the first of them starts with what was read so far. *)
Lemma sentences_good :
  forall t,
    (forall cur,
        last_ok (rev cur ++ t) = true ->
        no_boundary false (rev cur) = true ->
        exists u l,
          sentences false cur t = (rev cur ++ u) :: l /\
          good ((rev cur ++ u) :: l) = true) /\
    (t <> [] -> last_ok t = true ->
     exists p l,
       sentences true [] t = p :: l /\
       starts_nonspace p = true /\ good (p :: l) = true).
Proof.
  induction t as [|x tl [IHF IHG]]; split.
  - intros cur Hl Hnb. exists [], []. rewrite !app_nil_r in *.
    cbn [sentences good]. rewrite Hnb, Hl. auto.
  - intros H. congruence.
  - intros cur Hl Hnb. cbn [sentences orb].
    destruct (is_space x && ends_with_terminator cur) eqn:Hc.
    + apply andb_true_iff in Hc. destruct Hc as [Hx Hterm].
      assert (Htl : tl <> []).
      { intros ->. rewrite last_ok_snoc, Hx in Hl. discriminate. }
      assert (Hl' : last_ok tl = true).
      { rewrite last_ok_app in Hl by discriminate.
        change (x :: tl) with ([x] ++ tl) in Hl.
        rewrite last_ok_app in Hl by exact Htl. exact Hl. }
      destruct (IHG Htl Hl') as (p & l & Hs & Hp & Hg).
      exists [], (p :: l). rewrite app_nil_r, Hs. split; [reflexivity|].
      cbn [good]. rewrite Hnb, rev_involutive, Hterm, Hp.
      cbn [andb]. exact Hg.
    + assert (Hnb' : no_boundary false (rev (x :: cur)) = true).
      { rewrite no_boundary_rev_cons, Hnb, Hc. reflexivity. }
      assert (Hl' : last_ok (rev (x :: cur) ++ tl) = true).
      { simpl rev. rewrite <- app_assoc. exact Hl. }
      destruct (IHF (x :: cur) Hl' Hnb') as (u & l & Hs & Hg).
      exists (x :: u), l. simpl rev in Hs, Hg.
      rewrite <- app_assoc in Hs, Hg. auto.
  - intros _ Hl. cbn [sentences orb andb].
    rewrite andb_true_r.
    destruct (is_space x) eqn:Hx.
    + assert (Htl : tl <> []).
      { intros ->. unfold last_ok in Hl. simpl in Hl. rewrite Hx in Hl.
        discriminate. }
      assert (Hl' : last_ok tl = true).
      { change (x :: tl) with ([x] ++ tl) in Hl.
        rewrite last_ok_app in Hl by exact Htl. exact Hl. }
      apply IHG; auto.
    + assert (Hnb : no_boundary false (rev [x]) = true).
      { simpl. rewrite andb_false_r. reflexivity. }
      destruct (IHF [x] Hl Hnb) as (u & l & Hs & Hg).
      exists (x :: u), l. simpl rev in Hs, Hg. cbn [app] in Hs, Hg.
      repeat split; auto. simpl. rewrite Hx. reflexivity.
Qed.

End SummaryAgain.

Section SummaryTrim.

Lemma terminator_not_space (x : char) :
  is_terminator x = true -> is_space x = false.
Proof.
  unfold is_terminator. rewrite !orb_true_iff, !N.eqb_eq.
  intros [[->| ->]| ->]; reflexivity.
Qed.

Lemma ends_term_last_ok (p : str) :
  ends_with_terminator (rev p) = true -> last_ok p = true.
Proof.
  unfold last_ok. destruct (rev p) as [|x r]; simpl; auto.
  intro H. rewrite (terminator_not_space _ H). reflexivity.
Qed.

Lemma good_firstn (l : list str) :
  good l = true -> forall k, good (firstn (S k) l) = true.
Proof.
  induction l as [|p l IH]; [discriminate|].
  intros H k. cbn [firstn]. cbn [good] in H.
  apply andb_true_iff in H. destruct H as [Hp H].
  destruct l as [|q l'].
  - rewrite firstn_nil. cbn [good]. rewrite Hp, H. reflexivity.
  - apply andb_true_iff in H. destruct H as [H Hg].
    apply andb_true_iff in H. destruct H as [Hend Hq].
    destruct k as [|k].
    + cbn [firstn good]. rewrite Hp, (ends_term_last_ok _ Hend). reflexivity.
    + specialize (IH Hg k). cbn [firstn] in IH |- *. cbn [good].
      cbn [good] in IH. rewrite Hp, Hend, Hq. cbn [andb]. exact IH.
Qed.

Lemma last_ok_join (l : list str) :
  good l = true -> last_ok (join [32] l) = true.
Proof.
  induction l as [|p l IH]; [discriminate|].
  cbn [good]. intro H. apply andb_true_iff in H. destruct H as [_ H].
  destruct l as [|q l']; [exact H|].
  apply andb_true_iff in H. destruct H as [H Hg].
  apply andb_true_iff in H. destruct H as [_ Hq].
  rewrite join_cons by discriminate.
  assert (Hne : join [32] (q :: l') <> []).
  { destruct q; [discriminate|]. destruct l'; discriminate. }
  rewrite last_ok_app by (destruct (join [32] (q :: l')); discriminate).
  rewrite last_ok_app by exact Hne. apply IH, Hg.
Qed.

Lemma lstrip_shape (s : str) :
  lstrip s = [] \/ starts_nonspace (lstrip s) = true.
Proof.
  induction s as [|c tl IH]; simpl; auto.
  destruct (is_space c) eqn:Hc; auto.
  right. simpl. rewrite Hc. reflexivity.
Qed.

Lemma lstrip_fixed (s : str) : starts_nonspace s = true -> lstrip s = s.
Proof.
  destruct s as [|c tl]; simpl; auto.
  intro H. apply negb_true_iff in H. rewrite H. reflexivity.
Qed.

Lemma lstrip_snoc (a : str) (y : char) :
  is_space y = false -> lstrip (a ++ [y]) = lstrip a ++ [y].
Proof.
  intro Hy. induction a as [|c a IH]; simpl.
  - rewrite Hy. reflexivity.
  - destruct (is_space c); auto.
Qed.

Lemma last_ok_rstrip (s : str) : last_ok (rstrip s) = true.
Proof.
  unfold last_ok, rstrip. rewrite rev_involutive.
  destruct (lstrip_shape (rev s)) as [H|H].
  - rewrite H. reflexivity.
  - destruct (lstrip (rev s)); [reflexivity | exact H].
Qed.

(** What [strip] returns is empty or has no whitespace at either end. *)
Lemma strip_shape (s : str) :
  strip s = [] \/ (starts_nonspace (strip s) = true /\ last_ok (strip s) = true).
Proof.
  unfold strip. destruct (lstrip_shape s) as [H|H].
  - rewrite H. left. reflexivity.
  - right. split; [|apply last_ok_rstrip].
    destruct (lstrip s) as [|y t]; [discriminate|].
    simpl in H. apply negb_true_iff in H.
    unfold rstrip. simpl rev. rewrite lstrip_snoc by exact H.
    rewrite rev_app_distr. simpl. rewrite H. reflexivity.
Qed.

(** A string without whitespace at either end is left as it is. *)
Lemma strip_fixed (s : str) :
  starts_nonspace s = true -> last_ok s = true -> strip s = s.
Proof.
  intros Hs Hl. unfold strip. rewrite lstrip_fixed by exact Hs.
  unfold rstrip. unfold last_ok in Hl.
  destruct (rev s) as [|x r] eqn:Hr.
  - apply (f_equal (@rev char)) in Hr. rewrite rev_involutive in Hr.
    simpl in Hr. subst s. discriminate.
  - rewrite lstrip_fixed by exact Hl. rewrite <- Hr. apply rev_involutive.
Qed.

(** The summary and its sentences, for a text that is not blank. *)
Lemma summary_pieces (text : str) :
  strip text <> [] ->
  exists pieces,
    simple_summary text = join [32] pieces /\
    good pieces = true /\ (length pieces <= 3)%nat /\
    starts_nonspace (join [32] pieces) = true.
Proof.
  intro Hne. unfold simple_summary. rewrite split_sentences.
  destruct (strip_shape text) as [H|[Hs Hl]]; [contradiction|].
  destruct (strip text) as [|x tl]; [congruence|].
  simpl in Hs. apply negb_true_iff in Hs.
  assert (Hnb : no_boundary false (rev [x]) = true).
  { simpl. rewrite andb_false_r. reflexivity. }
  destruct (proj1 (sentences_good tl) [x] Hl Hnb) as (u & l & Hsent & Hg).
  cbn [sentences orb]. rewrite andb_false_r. rewrite Hsent.
  simpl rev in *. cbn [app] in *.
  exists (firstn 3 ((x :: u) :: l)). split; [reflexivity|].
  split; [apply good_firstn, Hg|]. split.
  - rewrite length_firstn. lia.
  - change (firstn 3 ((x :: u) :: l)) with ((x :: u) :: firstn 2 l).
    destruct (firstn 2 l);
      cbn [join app starts_nonspace]; rewrite Hs; reflexivity.
Qed.

End SummaryTrim.

(** X17.  A summary is its own summary: it has no whitespace at either end,
    it splits into at most three sentences, and summarizing it gives it
    back. *)
Theorem X17_summary_idempotent (text : str) :
  simple_summary (simple_summary text) = simple_summary text /\
  strip (simple_summary text) = simple_summary text /\
  (length (Re.split false sentence_re (simple_summary text)) <= 3)%nat.
Proof.
  destruct (strip text) as [|x tl] eqn:Hst.
  - assert (Hs : simple_summary text = []).
    { unfold simple_summary. rewrite Hst. reflexivity. }
    rewrite Hs. repeat split; vm_compute; auto.
  - assert (Hne : strip text <> []) by (rewrite Hst; discriminate).
    destruct (summary_pieces text Hne) as (pieces & Hsum & Hg & Hlen & Hfirst).
    assert (Hstrip : strip (join [32] pieces) = join [32] pieces).
    { apply strip_fixed; [exact Hfirst | apply last_ok_join, Hg]. }
    rewrite Hsum. split; [|split].
    + unfold simple_summary. rewrite Hstrip, split_sentences.
      rewrite (sentences_of_good _ Hg), firstn_all2 by exact Hlen.
      reflexivity.
    + exact Hstrip.
    + rewrite split_sentences, (sentences_of_good _ Hg). exact Hlen.
Qed.
